(** * Transcription-for-Journalists: search, navigation, upload validation,
      transcription workflow and assistant chat

    A shallow embedding of the state logic of the React components
    [TranscriptionDisplay], [MediaUploader], [App] and [AssistantPanel].

    Strings are lists of 8-bit code units (the Latin-1 range of JavaScript's
    UTF-16 code units).  Component state is a record; a handler is a function
    on that record; an [async] handler is split at its [await] into the part
    that runs before the remote call is issued and the part that runs when
    the promise settles. *)

From Stdlib Require Import String Ascii List ZArith NArith Lia Bool Arith.
Import ListNotations.
Open Scope list_scope.

(* ================================================================== *)
(** ** JavaScript string primitives used by the components *)
(* ================================================================== *)

Module JS.

(** A string whose code units all lie below 256.  The components are
    modelled on such strings: there [toLowerCase] and the case folding of
    a regular expression with the [i] flag identify the same letters, which
    they do not on all of UTF-16. *)
Definition str := list ascii.

(** String literals of the source. *)
Definition lit (s : string) : str := list_ascii_of_string s.

(** Truthiness of a string: [!s] holds exactly for the empty string. *)
Definition isEmpty (s : str) : bool :=
  match s with
  | [] => true
  | _ :: _ => false
  end.

(** [a === b] on strings. *)
Fixpoint strEq (a b : str) : bool :=
  match a, b with
  | [], [] => true
  | x :: a', y :: b' => Ascii.eqb x y && strEq a' b'
  | _, _ => false
  end.

(** [String.prototype.toLowerCase] on one code unit of the Latin-1 range:
    A-Z and the accented capitals U+00C0-U+00DE (without the times sign
    U+00D7) move up by 32. *)
Definition toLowerCaseUnit (c : ascii) : ascii :=
  let n := N_of_ascii c in
  if ((65 <=? n) && (n <=? 90) || (192 <=? n) && (n <=? 222) && negb (n =? 215))%N
  then ascii_of_N (n + 32)
  else c.

Definition toLowerCase (s : str) : str := map toLowerCaseUnit s.

(** The [Canonicalize] operation of a regular expression with the [i] flag
    (no [u] flag): the code unit of the upper-cased character.  The result is
    a code point, since y-diaeresis (255) and the micro sign (181) upper-case
    outside the 8-bit range; sharp s (223) upper-cases to two characters and
    is therefore left as it is. *)
Definition canonicalize (c : ascii) : N :=
  let n := N_of_ascii c in
  if ((97 <=? n) && (n <=? 122) || (224 <=? n) && (n <=? 254) && negb (n =? 247))%N
  then (n - 32)%N
  else if (n =? 255)%N then 376%N
  else if (n =? 181)%N then 924%N
  else n.

(** White space and line terminators removed by [String.prototype.trim]:
    TAB, LF, VT, FF, CR, SPACE and NO-BREAK SPACE. *)
Definition isWhiteSpace (c : ascii) : bool :=
  let n := N_of_ascii c in
  ((9 <=? n) && (n <=? 13) || (n =? 32) || (n =? 160))%N.

Fixpoint trimStart (s : str) : str :=
  match s with
  | [] => []
  | c :: s' => if isWhiteSpace c then trimStart s' else s
  end.

Definition trimEnd (s : str) : str := rev (trimStart (rev s)).

Definition trim (s : str) : str := trimEnd (trimStart s).

(** [s.startsWith(prefix)]. *)
Fixpoint startsWith (prefix s : str) : bool :=
  match prefix, s with
  | [] , _ => true
  | p :: prefix', c :: s' => Ascii.eqb p c && startsWith prefix' s'
  | _ :: _, [] => false
  end.

Definition newline : ascii := ascii_of_nat 10.

(** [s.split('\n')]: the pieces between the line feeds; never empty. *)
Fixpoint splitLines (s : str) : list str :=
  match s with
  | [] => [[]]
  | c :: s' =>
      if Ascii.eqb c newline then [] :: splitLines s'
      else match splitLines s' with
           | [] => [[c]]
           | l :: ls => (c :: l) :: ls
           end
  end.

(** [lines.join('\n')]. *)
Fixpoint joinLines (ls : list str) : str :=
  match ls with
  | [] => []
  | [l] => l
  | l :: ls' => l ++ newline :: joinLines ls'
  end.

(** A match of the regular expression [new RegExp('(' + escaped + ')', 'gi')]
    anchored at the head of [s].  Every character that is special in a
    pattern is escaped, so the pattern is the literal [pat]; with the [i]
    flag two code units match when their canonical forms agree. *)
Fixpoint matchesAt (pat s : str) : bool :=
  match pat, s with
  | [], _ => true
  | p :: pat', c :: s' => (canonicalize p =? canonicalize c)%N && matchesAt pat' s'
  | _ :: _, [] => false
  end.

(** The loop of [RegExp.prototype[Symbol.split]]: [piece] is the text
    between the end of the last match and the scan position, [rest] the text
    from the scan position on.  A match at the scan position whose end is the
    end of the last match (an empty match directly after a match) is skipped;
    otherwise the piece and the captured group are pushed and the scan goes
    on behind the match. *)
Fixpoint splitLoop (fuel : nat) (pat piece rest : str) : list str :=
  match fuel with
  | O => [piece ++ rest]
  | S fuel' =>
      match rest with
      | [] => [piece]
      | c :: rest' =>
          if matchesAt pat rest && negb (isEmpty pat && isEmpty piece)
          then piece :: firstn (length pat) rest
                     :: splitLoop fuel' pat [] (skipn (length pat) rest)
          else splitLoop fuel' pat (piece ++ [c]) rest'
      end
  end.

(** [s.split(regex)] for the one-group literal pattern above.  On the empty
    string the result is [[""]] unless the pattern matches it. *)
Definition splitRegex (pat s : str) : list str :=
  match s with
  | [] => if matchesAt pat [] then [] else [[]]
  | _ :: _ => splitLoop (2 * length s + 1) pat [] s
  end.

(** All 8-bit code units, and the check that [canonicalize] and
    [toLowerCaseUnit] identify the same pairs of them. *)
Definition allUnits : list ascii := map ascii_of_nat (seq 0 256).

Definition caseTablesAgree : bool :=
  forallb (fun a =>
    forallb (fun b =>
      Bool.eqb (canonicalize a =? canonicalize b)%N
               (Ascii.eqb (toLowerCaseUnit a) (toLowerCaseUnit b)))
      allUnits)
    allUnits.

(** [a || b] on strings that may be undefined. *)
Definition orElse (a : option str) (b : str) : str :=
  match a with
  | Some s => if isEmpty s then b else s
  | None => b
  end.

End JS.

(* ================================================================== *)
(** ** TranscriptionDisplay: search and match navigation *)
(* ================================================================== *)

Module TranscriptionDisplay.
Import JS.

Record Part := mkPart { text : str; isMatch : bool; index : Z }.

Record Paragraph := mkParagraph { ptext : str; parts : list Part }.

(** The callback of [paragraph.split(regex).map(part => ...)], with the
    counter [matchCount] of the enclosing closure passed through. *)
Fixpoint markParts (searchQuery : str) (matchCount : Z) (pieces : list str)
  : list Part * Z :=
  match pieces with
  | [] => ([], matchCount)
  | part :: pieces' =>
      if strEq (toLowerCase part) (toLowerCase searchQuery)
      then let index := matchCount in
           let (ps, n) := markParts searchQuery (matchCount + 1) pieces' in
           (mkPart part true index :: ps, n)
      else let (ps, n) := markParts searchQuery matchCount pieces' in
           (mkPart part false (-1) :: ps, n)
  end.

(** The callback of [text.split('\n').map(paragraph => ...)]. *)
Definition processParagraph (searchQuery : str) (matchCount : Z) (paragraph : str)
  : Paragraph * Z :=
  if isEmpty (trim paragraph)
  then (mkParagraph paragraph [mkPart paragraph false (-1)], matchCount)
  else let (ps, n) := markParts searchQuery matchCount (splitRegex searchQuery paragraph) in
       (mkParagraph paragraph ps, n).

Fixpoint processParagraphs (searchQuery : str) (matchCount : Z) (paragraphs : list str)
  : list Paragraph * Z :=
  match paragraphs with
  | [] => ([], matchCount)
  | p :: rest =>
      let (p', n) := processParagraph searchQuery matchCount p in
      let (rest', n') := processParagraphs searchQuery n rest in
      (p' :: rest', n')
  end.

(** The [useMemo] computation: [(processedParagraphs, totalMatches)]. *)
Definition search (text searchQuery : str) : list Paragraph * Z :=
  if isEmpty searchQuery
  then (map (fun p => mkParagraph p [mkPart p false (-1)]) (splitLines text), 0%Z)
  else processParagraphs searchQuery 0%Z (splitLines text).

Definition processedParagraphs (text searchQuery : str) : list Paragraph :=
  fst (search text searchQuery).

Definition totalMatches (text searchQuery : str) : Z :=
  snd (search text searchQuery).

(** The state updaters of [handleNextMatch] and [handlePrevMatch]; [%] is
    the remainder that takes the sign of the dividend. *)
Definition handleNextMatch (totalMatches prev : Z) : Z :=
  Z.rem (prev + 1) totalMatches.

Definition handlePrevMatch (totalMatches prev : Z) : Z :=
  Z.rem (prev - 1 + totalMatches) totalMatches.

(** What the [article] element shows for a paragraph: the text of its parts
    in order ([mark] for a match, [span] otherwise). *)
Definition renderedText (p : Paragraph) : str :=
  concat (map text (parts p)).

(** Offsets, inside a paragraph, at which its marked parts begin. *)
Fixpoint matchStarts (off : nat) (ps : list Part) : list nat :=
  match ps with
  | [] => []
  | p :: ps' =>
      (if isMatch p then [off] else []) ++ matchStarts (off + length (text p)) ps'
  end.

(** The [index] fields of the marked parts, in order. *)
Definition matchIndices (ps : list Part) : list Z :=
  map index (filter isMatch ps).

Definition allParts (ps : list Paragraph) : list Part :=
  flat_map parts ps.

(** The query occurs in [s] at offset [i], letter case ignored. *)
Definition occursAt (searchQuery s : str) (i : nat) : bool :=
  strEq (toLowerCase (firstn (length searchQuery) (skipn i s)))
        (toLowerCase searchQuery).



End TranscriptionDisplay.

(* ================================================================== *)
(** ** types.ts and the browser's [File] *)
(* ================================================================== *)

Module DOM.
Import JS.

(** The fields of a [File] the components read. *)
Record File := mkFile { name : str; type : str; size : Z }.

End DOM.

Module Types.
Import JS.

Inductive TranscriptionStatus :=
| IDLE | PROCESSING_FILE | TRANSCRIBING | COMPLETED | ERROR.

Inductive MediaType := audio | video.

Record MediaFile := mkMediaFile {
  file : DOM.File;
  previewUrl : str;
  type : MediaType
}.

Definition statusEq (a b : TranscriptionStatus) : bool :=
  match a, b with
  | IDLE, IDLE | PROCESSING_FILE, PROCESSING_FILE | TRANSCRIBING, TRANSCRIBING
  | COMPLETED, COMPLETED | ERROR, ERROR => true
  | _, _ => false
  end.

End Types.

(* ================================================================== *)
(** ** MediaUploader: file validation *)
(* ================================================================== *)

Module MediaUploader.
Import JS Types.

Definition sizeLimit : Z := 50 * 1024 * 1024.

Definition invalidTypeMessage : str :=
  lit "Please upload a valid audio or video file.".

Definition tooLargeMessage : str :=
  lit "File is too large for this demo (limit 50MB). Please compress or trim the file.".

(** [validateAndProcessFile]: the value of the component's [error] state
    after the call, and the argument of [onFileSelect] when it is called.
    [createObjectURL] stands for [URL.createObjectURL]. *)
Definition validateAndProcessFile (createObjectURL : DOM.File -> str) (file : DOM.File)
  : option str * option MediaFile :=
  let isAudio := startsWith (lit "audio/") (DOM.type file) in
  let isVideo := startsWith (lit "video/") (DOM.type file) in
  if negb isAudio && negb isVideo
  then (Some invalidTypeMessage, None)
  else if (DOM.size file >? sizeLimit)%Z
  then (Some tooLargeMessage, None)
  else (None,
        Some {| file := file;
                previewUrl := createObjectURL file;
                type := if isAudio then audio else video |}).

(** The error banner is rendered by [{error && ...}]. *)
Definition errorVisible (error : option str) : bool :=
  match error with
  | Some m => negb (isEmpty m)
  | None => false
  end.

End MediaUploader.

(* ================================================================== *)
(** ** AssistantPanel: the chat with the assistant *)
(* ================================================================== *)

Module AssistantPanel.
Import JS.

Inductive Role := user | model.

Record Message := mkMessage { role : Role; text : str }.

(** A chat session of the provider, created with the transcript in its
    system instruction. *)
Record Chat := mkChat { context : str }.

Record State := mkState {
  messages : list Message;
  input : str;
  isLoading : bool;
  chatSession : option Chat
}.

Definition initial : State :=
  {| messages := []; input := []; isLoading := false; chatSession := None |}.

(** [createChatSession] of the service module: [None] when it throws, which
    it does for a missing API key. *)
Definition createChatSession (apiKey transcription : str) : option Chat :=
  if isEmpty apiKey then None else Some {| context := transcription |}.

Definition greeting : Message :=
  {| role := model;
     text := lit "I've analyzed the transcript. I can help you summarize the content, find specific quotes, or answer questions about what was discussed." |}.

Definition initFailure : Message :=
  {| role := model;
     text := lit "Error initializing AI assistant. Please check your API key." |}.

(** The effect on [transcription]. *)
Definition initChat (apiKey transcription : str) (s : State) : State :=
  if isEmpty transcription then s
  else match createChatSession apiKey transcription with
       | Some session =>
           {| messages := [greeting]; input := input s;
              isLoading := isLoading s; chatSession := Some session |}
       | None =>
           {| messages := [initFailure]; input := input s;
              isLoading := isLoading s; chatSession := chatSession s |}
       end.

Definition isNull {A : Type} (o : option A) : bool :=
  match o with
  | Some _ => false
  | None => true
  end.

(** [handleSend] up to its [await]: the state after the synchronous part
    and the [sendMessage] call it issues, if any. *)
Definition handleSend_begin (s : State) (text : str) : State * option (Chat * str) :=
  if isEmpty (trim text) || isNull (chatSession s) || isLoading s
  then (s, None)
  else match chatSession s with
       | None => (s, None)
       | Some session =>
           ({| messages := messages s ++ [{| role := user; text := text |}];
               input := [];
               isLoading := true;
               chatSession := chatSession s |},
            Some (session, text))
       end.

(** How the awaited [sendMessage] settles: a response whose [text] may be
    missing, or an exception. *)
Inductive ChatOutcome :=
| Replied (responseText : option str)
| Failed.

Definition fallbackReply : str := lit "I couldn't generate a response.".
Definition errorReply : str := lit "Sorry, I encountered an error. Please try again.".

Definition reply (o : ChatOutcome) : Message :=
  match o with
  | Replied responseText => {| role := model; text := orElse responseText fallbackReply |}
  | Failed => {| role := model; text := errorReply |}
  end.

(** [handleSend] from the [await] on: [try] or [catch], then [finally]. *)
Definition handleSend_settle (s : State) (o : ChatOutcome) : State :=
  {| messages := messages s ++ [reply o];
     input := input s;
     isLoading := false;
     chatSession := chatSession s |}.

Definition setInput (s : State) (v : str) : State :=
  {| messages := messages s; input := v;
     isLoading := isLoading s; chatSession := chatSession s |}.

(** A mounted panel: its state and the number of [sendMessage] calls it has
    issued that have not settled yet. *)
Record Instance := mkInstance { state : State; outstanding : nat }.

Definition mount (apiKey transcription : str) : Instance :=
  {| state := initChat apiKey transcription initial; outstanding := 0 |}.

Inductive Event :=
| SendInput                    (* send button or Enter: handleSend() *)
| QuickAction (prompt : str)   (* handleSend(prompt) *)
| TypeInput (v : str)          (* onChange of the input *)
| Settled (o : ChatOutcome).   (* the awaited call returns or throws *)

Definition enabled (p : Instance) (e : Event) : bool :=
  match e with
  | Settled _ => 0 <? outstanding p
  | _ => true
  end.

Definition send (p : Instance) (text : str) : Instance :=
  let (s', call) := handleSend_begin (state p) text in
  {| state := s';
     outstanding := outstanding p + (if isNull call then 0 else 1) |}.

Definition step (p : Instance) (e : Event) : Instance :=
  match e with
  | SendInput => send p (input (state p))
  | QuickAction prompt => send p prompt
  | TypeInput v => {| state := setInput (state p) v; outstanding := outstanding p |}
  | Settled o => {| state := handleSend_settle (state p) o;
                    outstanding := outstanding p - 1 |}
  end.

Inductive reachable (apiKey transcription : str) : Instance -> Prop :=
| reach_mount : reachable apiKey transcription (mount apiKey transcription)
| reach_event p e :
    reachable apiKey transcription p ->
    enabled p e = true ->
    reachable apiKey transcription (step p e).

(** Turn order of a conversation: every user message is directly followed
    by a model message, except a last one while its reply is awaited
    ([loading]); while a reply is awaited the last message is the user's. *)
Fixpoint turnOrder (loading : bool) (l : list Message) : bool :=
  match l with
  | [] => negb loading
  | m :: l' =>
      match role m with
      | model => turnOrder loading l'
      | user =>
          match l' with
          | [] => loading
          | m' :: l'' =>
              match role m' with
              | model => turnOrder loading l''
              | user => false
              end
          end
      end
  end.

End AssistantPanel.

(* ================================================================== *)
(** ** App: the transcription workflow *)
(* ================================================================== *)

Module App.
Import JS Types.

Inductive Tab := transcript | assistant.

Record State := mkState {
  mediaFile : option MediaFile;
  status : TranscriptionStatus;
  transcription : str;
  error : option str;
  elapsedTime : nat;
  activeTab : Tab
}.

Definition initial : State :=
  {| mediaFile := None; status := IDLE; transcription := []; error := None;
     elapsedTime := 0; activeTab := transcript |}.

(** The calls of the state setters a handler makes, in order. *)
Inductive SetState :=
| setMediaFile (v : option MediaFile)
| setStatus (v : TranscriptionStatus)
| setTranscription (v : str)
| setError (v : option str)
| setElapsedTime (v : nat)
| setActiveTab (v : Tab).

Definition apply (s : State) (a : SetState) : State :=
  match a with
  | setMediaFile v =>
      {| mediaFile := v; status := status s; transcription := transcription s;
         error := error s; elapsedTime := elapsedTime s; activeTab := activeTab s |}
  | setStatus v =>
      {| mediaFile := mediaFile s; status := v; transcription := transcription s;
         error := error s; elapsedTime := elapsedTime s; activeTab := activeTab s |}
  | setTranscription v =>
      {| mediaFile := mediaFile s; status := status s; transcription := v;
         error := error s; elapsedTime := elapsedTime s; activeTab := activeTab s |}
  | setError v =>
      {| mediaFile := mediaFile s; status := status s; transcription := transcription s;
         error := v; elapsedTime := elapsedTime s; activeTab := activeTab s |}
  | setElapsedTime v =>
      {| mediaFile := mediaFile s; status := status s; transcription := transcription s;
         error := error s; elapsedTime := v; activeTab := activeTab s |}
  | setActiveTab v =>
      {| mediaFile := mediaFile s; status := status s; transcription := transcription s;
         error := error s; elapsedTime := elapsedTime s; activeTab := v |}
  end.

Definition run (calls : list SetState) (s : State) : State :=
  fold_left apply calls s.

Definition handleFileSelect (file : MediaFile) : list SetState :=
  [ setMediaFile (Some file); setError None; setTranscription [];
    setStatus IDLE; setActiveTab transcript ].

Definition handleReset : list SetState :=
  [ setMediaFile None; setTranscription []; setStatus IDLE;
    setError None; setActiveTab transcript ].

(** How the awaited [transcribeMedia] settles. *)
Inductive Outcome :=
| Resolved (result : str)
| Rejected (message : option str).

(** [handleTranscribe] up to its [await]: the setter calls and the
    [transcribeMedia] call it issues, if any. *)
Definition handleTranscribe_begin (s : State) : list SetState * option DOM.File :=
  match mediaFile s with
  | None => ([], None)
  | Some m =>
      ([ setStatus PROCESSING_FILE; setError None; setStatus TRANSCRIBING ],
       Some (file m))
  end.

Definition defaultError : str := lit "An unexpected error occurred.".

(** [handleTranscribe] from the [await] on: the rest of [try], or [catch]. *)
Definition handleTranscribe_settle (o : Outcome) : list SetState :=
  match o with
  | Resolved result => [ setTranscription result; setStatus COMPLETED ]
  | Rejected message =>
      [ setError (Some (orElse message defaultError)); setStatus ERROR ]
  end.

(** The statuses a list of setter calls moves through, and the transcripts
    it sets. *)
Fixpoint statusesSet (calls : list SetState) : list TranscriptionStatus :=
  match calls with
  | [] => []
  | setStatus v :: rest => v :: statusesSet rest
  | _ :: rest => statusesSet rest
  end.

Fixpoint transcriptsSet (calls : list SetState) : list str :=
  match calls with
  | [] => []
  | setTranscription v :: rest => v :: transcriptsSet rest
  | _ :: rest => transcriptsSet rest
  end.

(** The timer effect on [status]. *)
Definition timerRuns (st : TranscriptionStatus) : bool :=
  match st with
  | TRANSCRIBING | PROCESSING_FILE => true
  | _ => false
  end.

Definition statusEffect (old new : State) : State :=
  if statusEq (status old) (status new) then new
  else if timerRuns (status new) then new
  else apply new (setElapsedTime 0).

Definition tick (s : State) : State := apply s (setElapsedTime (elapsedTime s + 1)).

(** What the rendered page offers. *)
Definition hasMedia (s : State) : bool :=
  match mediaFile s with
  | Some _ => true
  | None => false
  end.

Definition uploaderShown (s : State) : bool := negb (hasMedia s).

Definition startButtonShown (s : State) : bool :=
  hasMedia s && (statusEq (status s) IDLE || statusEq (status s) ERROR).

Definition changeFileEnabled (s : State) : bool :=
  hasMedia s && negb (statusEq (status s) TRANSCRIBING).

Definition tabIs (s : State) (t : Tab) : bool :=
  match activeTab s, t with
  | transcript, transcript | assistant, assistant => true
  | _, _ => false
  end.

Definition displayShown (s : State) : bool :=
  hasMedia s && tabIs s transcript && negb (isEmpty (transcription s)).

Definition assistantTabEnabled (s : State) : bool :=
  hasMedia s && negb (isEmpty (transcription s)).

Definition assistantShown (s : State) : bool :=
  hasMedia s && tabIs s assistant.

(** [transcribeMedia] of the service module resolves with a non-empty text,
    and only when an API key is configured; every error it throws carries a
    message. *)
Definition transcribeMediaSettles (apiKey : str) (o : Outcome) : bool :=
  match o with
  | Resolved result => negb (isEmpty apiKey) && negb (isEmpty result)
  | Rejected (Some message) => negb (isEmpty message)
  | Rejected None => false
  end.

(** The page: the state of [App], of the mounted children, and the number
    of [transcribeMedia] calls that have not settled. *)
Record World := mkWorld {
  app : State;
  uploadError : option str;
  pending : nat;
  chat : option AssistantPanel.Instance
}.

Definition start : World :=
  {| app := initial; uploadError := None; pending := 0; chat := None |}.

Inductive Event :=
| SelectFile (f : DOM.File)        (* a file is picked or dropped *)
| StartTranscription               (* Start Transcription *)
| TranscribeSettled (o : Outcome)  (* the awaited call returns or throws *)
| Reset                            (* Change File, or New in the transcript view *)
| SelectTab (t : Tab)
| Tick                             (* the one-second interval fires *)
| Assistant (e : AssistantPanel.Event).

Section Environment.

Variable apiKey : str.
Variable createObjectURL : DOM.File -> str.

(** Children after a render: a child that is no longer rendered loses its
    state, a child that appears starts afresh, and a mounted assistant
    re-runs its effect when the transcript changes. *)
Definition renderChat (old new : State) (c : option AssistantPanel.Instance)
  : option AssistantPanel.Instance :=
  if assistantShown new
  then match c with
       | Some p =>
           if strEq (transcription old) (transcription new) then Some p
           else Some {| AssistantPanel.state :=
                          AssistantPanel.initChat apiKey (transcription new)
                                                  (AssistantPanel.state p);
                        AssistantPanel.outstanding := AssistantPanel.outstanding p |}
       | None => Some (AssistantPanel.mount apiKey (transcription new))
       end
  else None.

Definition renderUploadError (old new : State) (e : option str) : option str :=
  if uploaderShown new && uploaderShown old then e else None.

Definition update (w : World) (calls : list SetState) : World :=
  let old := app w in
  let new := statusEffect old (run calls old) in
  {| app := new;
     uploadError := renderUploadError old new (uploadError w);
     pending := pending w;
     chat := renderChat old new (chat w) |}.

Definition enabled (w : World) (e : Event) : bool :=
  match e with
  | SelectFile _ => uploaderShown (app w)
  | StartTranscription => startButtonShown (app w)
  | TranscribeSettled o => (0 <? pending w) && transcribeMediaSettles apiKey o
  | Reset => changeFileEnabled (app w) || displayShown (app w)
  | SelectTab transcript => hasMedia (app w)
  | SelectTab assistant => assistantTabEnabled (app w)
  | Tick => timerRuns (status (app w))
  | Assistant e =>
      match chat w with
      | Some p => AssistantPanel.enabled p e
      | None => false
      end
  end.

Definition step (w : World) (e : Event) : World :=
  match e with
  | SelectFile f =>
      let (err, call) := MediaUploader.validateAndProcessFile createObjectURL f in
      let w1 := {| app := app w; uploadError := err;
                   pending := pending w; chat := chat w |} in
      match call with
      | Some m => update w1 (handleFileSelect m)
      | None => w1
      end
  | StartTranscription =>
      let (calls, call) := handleTranscribe_begin (app w) in
      update {| app := app w; uploadError := uploadError w;
                pending := pending w + (if AssistantPanel.isNull call then 0 else 1);
                chat := chat w |}
             calls
  | TranscribeSettled o =>
      update {| app := app w; uploadError := uploadError w;
                pending := pending w - 1; chat := chat w |}
             (handleTranscribe_settle o)
  | Reset => update w handleReset
  | SelectTab t => update w [setActiveTab t]
  | Tick => {| app := tick (app w); uploadError := uploadError w;
               pending := pending w; chat := chat w |}
  | Assistant e =>
      {| app := app w; uploadError := uploadError w; pending := pending w;
         chat := option_map (fun p => AssistantPanel.step p e) (chat w) |}
  end.

Inductive reachable : World -> Prop :=
| reach_start : reachable start
| reach_step w e : reachable w -> enabled w e = true -> reachable (step w e).

Definition steps (w : World) (es : list Event) : World := fold_left step es w.

(** Every event of [es] is offered by the page when it happens. *)
Fixpoint allEnabled (w : World) (es : list Event) : bool :=
  match es with
  | [] => true
  | e :: es' => enabled w e && allEnabled (step w e) es'
  end.

End Environment.

Definition isReset (e : Event) : bool :=
  match e with
  | Reset => true
  | _ => false
  end.

(** The error banner of the workspace is rendered by [{error && ...}]. *)
Definition errorShown (s : State) : bool :=
  hasMedia s &&
  match error s with
  | Some m => negb (isEmpty m)
  | None => false
  end.

(** What holds of every page that can be reached: a call is outstanding
    exactly while the status is TRANSCRIBING, without a media file the
    status is IDLE, and outside COMPLETED the transcript is empty. *)
Definition consistent (w : World) : Prop :=
  pending w = (if statusEq (status (app w)) TRANSCRIBING then 1 else 0) /\
  (hasMedia (app w) = false -> status (app w) = IDLE) /\
  (status (app w) <> COMPLETED -> transcription (app w) = []).

End App.

(* ================================================================== *)
(** ** Concrete inputs on which the theorems are exercised *)
(* ================================================================== *)

Module Sample.
Import JS.

Definition apiKey : str := lit "k3y".

Definition createObjectURL (f : DOM.File) : str := lit "blob:" ++ DOM.name f.

Definition interview : DOM.File :=
  {| DOM.name := lit "interview.mp3"; DOM.type := lit "audio/mpeg"; DOM.size := 4096 |}.

Definition clip : DOM.File :=
  {| DOM.name := lit "clip.mp4"; DOM.type := lit "video/mp4"; DOM.size := 52428800 |}.

Definition notes : DOM.File :=
  {| DOM.name := lit "notes.pdf"; DOM.type := lit "application/pdf"; DOM.size := 10 |}.

Definition huge : DOM.File :=
  {| DOM.name := lit "film.mp4"; DOM.type := lit "video/mp4"; DOM.size := 52428801 |}.

Definition media : Types.MediaFile :=
  {| Types.file := interview;
     Types.previewUrl := createObjectURL interview;
     Types.type := Types.audio |}.

Definition step := App.step apiKey createObjectURL.

(** The page after a file was chosen, while it is transcribed, after the
    transcript arrived, and with the assistant open on it. *)
Definition loaded : App.World := step App.start (App.SelectFile interview).
Definition transcribing : App.World := step loaded App.StartTranscription.
Definition completed : App.World :=
  step transcribing (App.TranscribeSettled (App.Resolved (lit "Speaker 1: hello"))).
Definition chatting : App.World := step completed (App.SelectTab App.assistant).

Definition panel : AssistantPanel.Instance :=
  AssistantPanel.mount apiKey (lit "Speaker 1: hello").

Definition asked : AssistantPanel.Instance :=
  AssistantPanel.step panel (AssistantPanel.QuickAction (lit "Summarize")).

End Sample.

(* ================================================================== *)
(** ** TranscriptionDisplay: the state of the search bar *)
(* ================================================================== *)

Module SearchBar.
Import JS TranscriptionDisplay.

(** [searchQuery] and [currentMatchIndex] of the component. *)
Record State := mkState { searchQuery : str; currentMatchIndex : Z }.

Definition initial : State := {| searchQuery := []; currentMatchIndex := 0 |}.

(** [setSearchQuery(v)] followed by the effect on [searchQuery], which
    runs when the value has changed and sets the index to 0. *)
Definition setSearchQuery (s : State) (v : str) : State :=
  if strEq v (searchQuery s) then s
  else {| searchQuery := v; currentMatchIndex := 0 |}.

Definition clearSearch (s : State) : State := setSearchQuery s [].

Inductive Event :=
| TypeQuery (v : str)   (* onChange of the search input *)
| NextMatch             (* the down button *)
| PrevMatch             (* the up button *)
| ClearSearch.          (* the X button *)

(** The three buttons are rendered when the query is not empty; the two
    navigation buttons are disabled when there is no match. *)
Definition enabled (text : str) (s : State) (e : Event) : bool :=
  match e with
  | TypeQuery _ => true
  | NextMatch | PrevMatch =>
      negb (isEmpty (searchQuery s))
      && negb (totalMatches text (searchQuery s) =? 0)%Z
  | ClearSearch => negb (isEmpty (searchQuery s))
  end.

Definition step (text : str) (s : State) (e : Event) : State :=
  match e with
  | TypeQuery v => setSearchQuery s v
  | NextMatch =>
      {| searchQuery := searchQuery s;
         currentMatchIndex :=
           handleNextMatch (totalMatches text (searchQuery s)) (currentMatchIndex s) |}
  | PrevMatch =>
      {| searchQuery := searchQuery s;
         currentMatchIndex :=
           handlePrevMatch (totalMatches text (searchQuery s)) (currentMatchIndex s) |}
  | ClearSearch => clearSearch s
  end.

Inductive reachable (text : str) : State -> Prop :=
| reach_initial : reachable text initial
| reach_next s e :
    reachable text s -> enabled text s e = true -> reachable text (step text s e).

(** A part is drawn as the current match when it is a match whose index is
    [currentMatchIndex]. *)
Definition isCurrent (s : State) (p : Part) : bool :=
  isMatch p && (currentMatchIndex s =? index p)%Z.

Definition currentParts (text : str) (s : State) : list Part :=
  filter (isCurrent s) (allParts (processedParagraphs text (searchQuery s))).

End SearchBar.

(* ================================================================== *)
(** ** The transcription service *)
(* ================================================================== *)

Module GeminiService.
Import JS.

Definition missingKeyMessage : str :=
  lit "API Key is missing. Please check your environment configuration.".

Definition noTextMessage : str :=
  lit "No transcription text returned from the model.".

Definition unexpectedMessage : str :=
  lit "An unexpected error occurred during transcription.".

(** How an awaited collaborator ends: with a value, or with an exception
    that is an object or a primitive value other than [undefined] and
    [null], whose [message] may be missing. *)
Inductive Awaited (A : Type) :=
| Returned (v : A)
| Threw (message : option str).

Arguments Returned {A} v.
Arguments Threw {A} message.

(** What [fileToGenerativePart] and [generateContent] do when they are
    awaited; of the response only [text] is read. *)
Record Remote := mkRemote {
  mediaPart : Awaited str;
  response : Awaited (option str)
}.

(** [transcribeMedia]: how its promise settles, and the number of calls of
    [generateContent] it has made. *)
Definition transcribeMedia (apiKey : str) (r : Remote) : App.Outcome * nat :=
  if isEmpty apiKey
  then (App.Rejected (Some missingKeyMessage), 0)
  else match mediaPart r with
       | Threw message =>
           (App.Rejected (Some (orElse message unexpectedMessage)), 0)
       | Returned _ =>
           match response r with
           | Threw message =>
               (App.Rejected (Some (orElse message unexpectedMessage)), 1)
           | Returned text =>
               if isEmpty (orElse text [])
               then (App.Rejected (Some (orElse (Some noTextMessage) unexpectedMessage)), 1)
               else (App.Resolved (orElse text []), 1)
           end
       end.

End GeminiService.

(* ================================================================== *)
(** ** MediaUploader: drag, drop and the file input *)
(* ================================================================== *)

Module DropZone.
Import JS Types.

(** [dragActive] and [error] of the component. *)
Record State := mkState { dragActive : bool; error : option str }.

Definition initial : State := {| dragActive := false; error := None |}.

(** [handleDrag], by the type of the drag event. *)
Definition handleDrag (eventType : str) (s : State) : State :=
  if strEq eventType (lit "dragenter") || strEq eventType (lit "dragover")
  then {| dragActive := true; error := error s |}
  else if strEq eventType (lit "dragleave")
  then {| dragActive := false; error := error s |}
  else s.

Definition process (createObjectURL : DOM.File -> str) (file : DOM.File) (s : State)
  : State * option MediaFile :=
  let (err, call) := MediaUploader.validateAndProcessFile createObjectURL file in
  ({| dragActive := dragActive s; error := err |}, call).

(** [handleDrop] on the files of the data transfer. *)
Definition handleDrop (createObjectURL : DOM.File -> str) (files : list DOM.File)
           (s : State) : State * option MediaFile :=
  let s1 := {| dragActive := false; error := error s |} in
  match files with
  | file :: _ => process createObjectURL file s1
  | [] => (s1, None)
  end.

(** [handleChange] on the files of the input element. *)
Definition handleChange (createObjectURL : DOM.File -> str) (files : list DOM.File)
           (s : State) : State * option MediaFile :=
  match files with
  | file :: _ => process createObjectURL file s
  | [] => (s, None)
  end.

End DropZone.

(* ================================================================== *)
(** ** What every reachable page satisfies *)
(* ================================================================== *)

Module Page.
Import JS Types.

(** The status is at rest, the error belongs to the ERROR state, the
    elapsed time is zero unless the timer runs, a transcript is there in
    the COMPLETED state and only there can the assistant tab be active; the
    assistant panel exists exactly when it is rendered, and its session is
    the one created from the transcript on the page. *)
Definition settled (apiKey : str) (w : App.World) : Prop :=
  let s := App.app w in
  App.status s <> PROCESSING_FILE /\
  (App.status s = ERROR -> exists msg, App.error s = Some msg /\ msg <> []) /\
  (App.status s <> ERROR -> App.error s = None) /\
  (App.timerRuns (App.status s) = false -> App.elapsedTime s = 0) /\
  (App.status s = COMPLETED -> App.transcription s <> []) /\
  (App.activeTab s = App.assistant -> App.transcription s <> []) /\
  (App.chat w = None <-> App.assistantShown s = false) /\
  (forall p, App.chat w = Some p ->
             AssistantPanel.chatSession (AssistantPanel.state p)
             = AssistantPanel.createChatSession apiKey (App.transcription s)).

End Page.

(* ================================================================== *)
(** ** More pages on which the theorems are exercised *)
(* ================================================================== *)

Module Scenario.
Import JS.

(** The page after the transcription of the sample file has failed, and
    the page after the user has tried again. *)
Definition failed : App.World :=
  Sample.step Sample.transcribing
              (App.TranscribeSettled (App.Rejected (Some (lit "quota exceeded")))).

Definition retried : App.World := Sample.step failed App.StartTranscription.

Definition ticking : App.World := Sample.step (Sample.step retried App.Tick) App.Tick.

End Scenario.

(* ================================================================== *)
(** ** AssistantPanel: what the panel shows *)
(* ================================================================== *)

Module PanelView.
Import JS AssistantPanel.

(** The quick actions are rendered while [messages.length < 3]. *)
Definition quickActionsShown (s : State) : bool := length (messages s) <? 3.

(** The first message of a panel that was mounted on a transcript. *)
Definition firstMessage (apiKey : str) : Message :=
  if isEmpty apiKey then initFailure else greeting.

(** A user message is not blank, a model message is not empty. *)
Definition hasContent (m : Message) : bool :=
  match role m with
  | user => negb (isEmpty (trim (text m)))
  | model => negb (isEmpty (text m))
  end.

End PanelView.

(* ================================================================== *)
(** ** AssistantPanel: FormattedMessage *)
(* ================================================================== *)

Module FormattedMessage.
Import JS.

(** [s.replace(/aa/g, '')] for a code unit [a]: the pairs are found from
    left to right, without overlap, and removed. *)
Fixpoint removePairs (a : ascii) (s : str) : str :=
  match s with
  | x :: ((y :: s') as t) =>
      if Ascii.eqb x a && Ascii.eqb y a then removePairs a s'
      else x :: removePairs a t
  | _ => s
  end.

Definition isHash (c : ascii) : bool := Ascii.eqb c "#"%char.

(** Line terminators of the 8-bit range: LF and CR. *)
Definition isLineTerminator (c : ascii) : bool :=
  let n := N_of_ascii c in ((n =? 10) || (n =? 13))%N.

Fixpoint dropWhile (f : ascii -> bool) (s : str) : str :=
  match s with
  | [] => []
  | c :: s' => if f c then dropWhile f s' else s
  end.

Fixpoint takeWhile (f : ascii -> bool) (s : str) : str :=
  match s with
  | [] => []
  | c :: s' => if f c then c :: takeWhile f s' else []
  end.

Definition endsLine (consumed : str) : bool :=
  match rev consumed with
  | c :: _ => isLineTerminator c
  | [] => false
  end.

(** [s.replace(/^#+\s*/gm, '')].  [atLineStart] tells whether the scan
    position is the start of the text or follows a line terminator; a match
    there takes the hashes and the white space behind them, line
    terminators included, and the scan goes on behind it. *)
Fixpoint removeHeaderMarkers (fuel : nat) (atLineStart : bool) (s : str) : str :=
  match fuel with
  | O => s
  | S fuel' =>
      match s with
      | [] => []
      | c :: s' =>
          if atLineStart && isHash c
          then let afterHashes := dropWhile isHash s in
               removeHeaderMarkers fuel'
                 (endsLine (takeWhile isWhiteSpace afterHashes))
                 (dropWhile isWhiteSpace afterHashes)
          else c :: removeHeaderMarkers fuel' (isLineTerminator c) s'
      end
  end.

(** The defensive cleanup: bold markers, italic markers, header markers. *)
Definition cleanText (text : str) : str :=
  let t := removePairs "_"%char (removePairs "*"%char text) in
  removeHeaderMarkers (length t + 1) true t.

(** [String.prototype.toUpperCase] on one code unit, as code points: sharp
    s becomes two letters, y-diaeresis and the micro sign leave the 8-bit
    range. *)
Definition toUpperCaseUnit (c : ascii) : list N :=
  let n := N_of_ascii c in
  if ((97 <=? n) && (n <=? 122) || (224 <=? n) && (n <=? 254) && negb (n =? 247))%N
  then [(n - 32)%N]
  else if (n =? 255)%N then [376%N]
  else if (n =? 181)%N then [924%N]
  else if (n =? 223)%N then [83%N; 83%N]
  else [n].

Definition toUpperCase (s : str) : list N := flat_map toUpperCaseUnit s.

Definition units (s : str) : list N := map N_of_ascii s.

Fixpoint unitsEq (a b : list N) : bool :=
  match a, b with
  | [], [] => true
  | x :: a', y :: b' => (x =? y)%N && unitsEq a' b'
  | _, _ => false
  end.

(** [trimmed === trimmed.toUpperCase()]. *)
Definition isUpperCased (s : str) : bool := unitsEq (units s) (toUpperCase s).

(** [/[A-Z]/.test(s)]. *)
Definition hasCapital (s : str) : bool :=
  existsb (fun c => let n := N_of_ascii c in ((65 <=? n) && (n <=? 90))%N) s.

Definition isDigit (c : ascii) : bool :=
  let n := N_of_ascii c in ((48 <=? n) && (n <=? 57))%N.

(** [/^\d+\.\s/.test(s)]. *)
Definition isNumbered (s : str) : bool :=
  match s with
  | c :: _ =>
      isDigit c &&
      match dropWhile isDigit s with
      | d :: w :: _ => Ascii.eqb d "."%char && isWhiteSpace w
      | _ => false
      end
  | [] => false
  end.

(** The second list marker of the source is written with the code units
    226, 8364, 162 and a space. *)
Definition bulletUnits : list N := [226%N; 8364%N; 162%N; 32%N].

Fixpoint startsWithUnits (prefix : list N) (s : str) : bool :=
  match prefix, s with
  | [], _ => true
  | p :: prefix', c :: s' => (p =? N_of_ascii c)%N && startsWithUnits prefix' s'
  | _ :: _, [] => false
  end.

(** [s.split(' ')] and [parts.join(' ')]. *)
Fixpoint splitOn (sep : ascii) (s : str) : list str :=
  match s with
  | [] => [[]]
  | c :: s' =>
      if Ascii.eqb c sep then [] :: splitOn sep s'
      else match splitOn sep s' with
           | [] => [[c]]
           | l :: ls => (c :: l) :: ls
           end
  end.

Fixpoint joinOn (sep : ascii) (ls : list str) : str :=
  match ls with
  | [] => []
  | [l] => l
  | l :: ls' => l ++ sep :: joinOn sep ls'
  end.

(** What a line is rendered as. *)
Inductive Element :=
| Spacer
| Header (title : str)
| ListItem (item : str)
| NumberedItem (num rest : str)
| Paragraph (body : str).

(** The callback of [cleanText.split('\n').map((line, i) => ...)]. *)
Definition formatLine (line : str) : Element :=
  let trimmed := trim line in
  if isEmpty trimmed then Spacer
  else if (length trimmed <? 60) && (3 <? length trimmed)
          && isUpperCased trimmed && hasCapital trimmed
          && negb (startsWith (lit "-") trimmed)
  then Header trimmed
  else if startsWith (lit "- ") trimmed || startsWithUnits bulletUnits trimmed
  then ListItem (skipn 2 trimmed)
  else if isNumbered trimmed
  then match splitOn " "%char trimmed with
       | num :: rest => NumberedItem num (joinOn " "%char rest)
       | [] => NumberedItem [] []
       end
  else Paragraph trimmed.

Definition render (text : str) : list Element :=
  map formatLine (splitLines (cleanText text)).

(** [a] is what is left of [b] after deleting some of its code units. *)
Inductive Subsequence : str -> str -> Prop :=
| sub_nil : Subsequence [] []
| sub_drop a b c : Subsequence a b -> Subsequence a (c :: b)
| sub_keep a b c : Subsequence a b -> Subsequence (c :: a) (c :: b).

(** Two adjacent code units [a] somewhere in [s]. *)
Fixpoint hasPair (a : ascii) (s : str) : bool :=
  match s with
  | x :: ((y :: _) as t) => (Ascii.eqb x a && Ascii.eqb y a) || hasPair a t
  | _ => false
  end.

Definition isMarker (c : ascii) : bool :=
  Ascii.eqb c "*"%char || Ascii.eqb c "_"%char || Ascii.eqb c "#"%char.

End FormattedMessage.

(* ================================================================== *)
(** ** The calls of [sendMessage] made along a run of the page *)
(* ================================================================== *)

Module ChatCalls.
Import JS.

(** Any event of the panel but the settling of its call. *)
Definition notSettled (e : AssistantPanel.Event) : bool :=
  match e with
  | AssistantPanel.Settled _ => false
  | _ => true
  end.

(** The text a send event passes to [handleSend]. *)
Definition sentText (p : AssistantPanel.Instance) (e : AssistantPanel.Event)
  : option str :=
  match e with
  | AssistantPanel.SendInput =>
      Some (AssistantPanel.input (AssistantPanel.state p))
  | AssistantPanel.QuickAction prompt => Some prompt
  | _ => None
  end.

(** The event makes the panel on the page call [sendMessage]. *)
Definition issues (w : App.World) (e : App.Event) : bool :=
  match e, App.chat w with
  | App.Assistant pe, Some p =>
      match sentText p pe with
      | Some text =>
          negb (AssistantPanel.isNull
                  (snd (AssistantPanel.handleSend_begin (AssistantPanel.state p) text)))
      | None => false
      end
  | _, _ => false
  end.

(** The event is the settling of the call the panel on the page awaits. *)
Definition settles (w : App.World) (e : App.Event) : bool :=
  match e, App.chat w with
  | App.Assistant (AssistantPanel.Settled _), Some p =>
      0 <? AssistantPanel.outstanding p
  | _, _ => false
  end.

Section Environment.

Variable apiKey : str.
Variable createObjectURL : DOM.File -> str.

(** The calls made, and the calls settled, along the run [es] from [w]. *)
Fixpoint issued (w : App.World) (es : list App.Event) : nat :=
  match es with
  | [] => 0
  | e :: es' =>
      (if issues w e then 1 else 0)
      + issued (App.step apiKey createObjectURL w e) es'
  end.

Fixpoint settled (w : App.World) (es : list App.Event) : nat :=
  match es with
  | [] => 0
  | e :: es' =>
      (if settles w e then 1 else 0)
      + settled (App.step apiKey createObjectURL w e) es'
  end.

Definition unsettled (w : App.World) (es : list App.Event) : nat :=
  issued w es - settled w es.

End Environment.

End ChatCalls.

(* ================================================================== *)
(** ** Properties of the string primitives *)
(* ================================================================== *)

Import JS.

Lemma strEq_refl (a : str) : strEq a a = true.
Proof.
  induction a as [|x a IH]; simpl; [reflexivity|].
  now rewrite Ascii.eqb_refl.
Qed.

Lemma strEq_eq (a b : str) : strEq a b = true <-> a = b.
Proof.
  split.
  - revert b; induction a as [|x a IH]; intros [|y b] H; simpl in H;
      try discriminate; [reflexivity|].
    apply andb_true_iff in H as [Hxy Hab].
    apply Ascii.eqb_eq in Hxy. f_equal; auto.
  - intros ->. apply strEq_refl.
Qed.

Lemma strEq_length (a b : str) : strEq a b = true -> length a = length b.
Proof. intros H. apply strEq_eq in H. now subst. Qed.

Lemma allUnits_complete (c : ascii) : In c allUnits.
Proof.
  unfold allUnits. rewrite <- (ascii_nat_embedding c).
  apply in_map, in_seq. pose proof (nat_ascii_bounded c). lia.
Qed.

Lemma caseTablesAgree_true : caseTablesAgree = true.
Proof. vm_compute. reflexivity. Qed.

(** On the 8-bit code units the case folding of the regular expression and
    [toLowerCase] identify the same letters. *)
Lemma canonicalize_toLowerCase (a b : ascii) :
  (canonicalize a =? canonicalize b)%N
  = Ascii.eqb (toLowerCaseUnit a) (toLowerCaseUnit b).
Proof.
  pose proof caseTablesAgree_true as H. unfold caseTablesAgree in H.
  rewrite forallb_forall in H. specialize (H a (allUnits_complete a)).
  rewrite forallb_forall in H. specialize (H b (allUnits_complete b)).
  now apply Bool.eqb_prop in H.
Qed.

Lemma toLowerCase_length (s : str) : length (toLowerCase s) = length s.
Proof. apply length_map. Qed.

(** The anchored match of the pattern is the comparison the [map] callback
    makes on the first [length pat] code units. *)
Lemma matchesAt_lower (pat s : str) :
  matchesAt pat s
  = strEq (toLowerCase (firstn (length pat) s)) (toLowerCase pat).
Proof.
  revert s; induction pat as [|p pat IH]; intros [|c s]; simpl; try reflexivity.
  rewrite canonicalize_toLowerCase, IH.
  f_equal. apply Bool.eq_true_iff_eq.
  rewrite !Ascii.eqb_eq. split; congruence.
Qed.

Lemma matchesAt_length (pat s : str) :
  matchesAt pat s = true -> length pat <= length s.
Proof.
  revert s; induction pat as [|p pat IH]; intros [|c s] H; simpl in *;
    try lia; try discriminate.
  apply andb_true_iff in H as [_ H]. apply IH in H. lia.
Qed.

Lemma matchesAt_nil (pat : str) : pat <> [] -> matchesAt pat [] = false.
Proof. destruct pat; [congruence|reflexivity]. Qed.

Lemma trimStart_nil_iff (s : str) :
  trimStart s = [] <-> forallb isWhiteSpace s = true.
Proof.
  induction s as [|c s IH]; simpl; [tauto|].
  destruct (isWhiteSpace c); simpl; [exact IH|].
  split; discriminate.
Qed.

(** [!s.trim()] holds exactly for the strings made of white space only. *)
Lemma trim_empty_iff (s : str) :
  isEmpty (trim s) = true <-> forallb isWhiteSpace s = true.
Proof.
  unfold trim, trimEnd.
  assert (E : forall l : str, isEmpty l = true <-> l = []) by
    (intros [|? ?]; simpl; split; congruence).
  rewrite E. split.
  - intros H. apply (f_equal (@rev ascii)) in H. rewrite rev_involutive in H.
    simpl in H. apply trimStart_nil_iff in H.
    rewrite forallb_forall in H.
    destruct (trimStart s) as [|c r] eqn:Hs; [now apply trimStart_nil_iff|].
    exfalso.
    assert (Hc : isWhiteSpace c = true) by (apply H, in_rev; rewrite rev_involutive; now left).
    clear H E. induction s as [|d s IH]; simpl in Hs; [discriminate|].
    destruct (isWhiteSpace d) eqn:Hd; [auto|].
    inversion Hs; subst. congruence.
  - intros H. apply trimStart_nil_iff in H. now rewrite H.
Qed.

(** *** Lines *)

Lemma splitLines_nonempty (s : str) : splitLines s <> [].
Proof.
  induction s as [|c s IH]; simpl; [discriminate|].
  destruct (Ascii.eqb c newline); [discriminate|].
  destruct (splitLines s); discriminate.
Qed.

Lemma joinLines_cons (l : str) (ls : list str) :
  ls <> [] -> joinLines (l :: ls) = l ++ newline :: joinLines ls.
Proof. destruct ls; [congruence|reflexivity]. Qed.

Lemma joinLines_splitLines (s : str) : joinLines (splitLines s) = s.
Proof.
  induction s as [|c s IH]; [reflexivity|].
  simpl splitLines. destruct (Ascii.eqb c newline) eqn:Hc.
  - apply Ascii.eqb_eq in Hc. subst c.
    rewrite joinLines_cons by apply splitLines_nonempty.
    now rewrite IH.
  - pose proof (splitLines_nonempty s) as Hne.
    destruct (splitLines s) as [|l ls]; [congruence|].
    destruct ls as [|l' ls].
    + simpl in *. congruence.
    + rewrite joinLines_cons by discriminate.
      rewrite joinLines_cons in IH by discriminate.
      rewrite <- app_comm_cons. now rewrite IH.
Qed.

(** *** The regular-expression split *)

Lemma concat_splitLoop (fuel : nat) (pat piece rest : str) :
  concat (splitLoop fuel pat piece rest) = piece ++ rest.
Proof.
  revert piece rest; induction fuel as [|fuel IH]; intros piece rest; simpl.
  - now rewrite app_nil_r.
  - destruct rest as [|c rest']; [reflexivity|].
    destruct (matchesAt pat (c :: rest') && negb (isEmpty pat && isEmpty piece)).
    + cbn [concat]. rewrite IH. simpl app at 2.
      now rewrite firstn_skipn.
    + rewrite IH. now rewrite <- app_assoc.
Qed.

Lemma concat_splitRegex (pat s : str) : concat (splitRegex pat s) = s.
Proof.
  destruct s as [|c s]; unfold splitRegex.
  - now destruct (matchesAt pat []).
  - apply (concat_splitLoop _ pat [] (c :: s)).
Qed.

(* ================================================================== *)
(** ** TranscriptionDisplay: the search computation *)
(* ================================================================== *)

Import TranscriptionDisplay.

Lemma isEmpty_false (s : str) : s <> [] -> isEmpty s = false.
Proof. destruct s; [congruence|reflexivity]. Qed.

Lemma markParts_hit (q : str) (n : Z) (part : str) (pieces : list str) :
  strEq (toLowerCase part) (toLowerCase q) = true ->
  markParts q n (part :: pieces)
  = (mkPart part true n :: fst (markParts q (n + 1) pieces),
     snd (markParts q (n + 1) pieces)).
Proof.
  intros H. simpl. rewrite H. now destruct (markParts q (n + 1) pieces).
Qed.

Lemma markParts_miss (q : str) (n : Z) (part : str) (pieces : list str) :
  strEq (toLowerCase part) (toLowerCase q) = false ->
  markParts q n (part :: pieces)
  = (mkPart part false (-1) :: fst (markParts q n pieces),
     snd (markParts q n pieces)).
Proof.
  intros H. simpl. rewrite H. now destruct (markParts q n pieces).
Qed.

(** Marking keeps the pieces: the parts carry the pieces as their text. *)
Lemma markParts_text (q : str) (pieces : list str) (n : Z) :
  map text (fst (markParts q n pieces)) = pieces.
Proof.
  revert n; induction pieces as [|part pieces IH]; intros n; [reflexivity|].
  destruct (strEq (toLowerCase part) (toLowerCase q)) eqn:E.
  - rewrite markParts_hit by exact E. simpl. now rewrite IH.
  - rewrite markParts_miss by exact E. simpl. now rewrite IH.
Qed.


(** The counter numbers the marked parts consecutively. *)
Lemma markParts_count (q : str) (pieces : list str) (n : Z) :
  let ps := fst (markParts q n pieces) in
  let k := length (filter isMatch ps) in
  snd (markParts q n pieces) = (n + Z.of_nat k)%Z /\
  matchIndices ps = map (fun i => (n + Z.of_nat i)%Z) (seq 0 k).
Proof.
  revert n; induction pieces as [|part pieces IH]; intros n.
  - simpl. split; [lia|reflexivity].
  - destruct (strEq (toLowerCase part) (toLowerCase q)) eqn:E.
    + rewrite markParts_hit by exact E. cbn zeta in *.
      destruct (IH (n + 1)%Z) as [IH1 IH2].
      unfold matchIndices in *. cbn [fst snd filter isMatch map length seq].
      rewrite IH1, IH2.
      generalize (length (filter isMatch (fst (markParts q (n + 1) pieces)))).
      intros k. split; [lia|].
      rewrite <- seq_shift, map_map. cbn [index]. f_equal; [lia|].
      apply map_ext. intros; lia.
    + rewrite markParts_miss by exact E. cbn zeta in *.
      destruct (IH n) as [IH1 IH2].
      unfold matchIndices in *. cbn [fst snd filter isMatch map length seq].
      now rewrite IH1, IH2.
Qed.

(** The split is a leftmost, non-overlapping scan.  [S] is the list of
    offsets of the marked parts of [piece ++ rest], counted from [off];
    no occurrence of the pattern starts inside [piece]. *)
Lemma splitLoop_greedy (pat : str) (fuel : nat) :
  pat <> [] ->
  forall (piece rest : str) (off : nat) (n : Z),
    length rest < fuel ->
    (forall j, j < length piece -> matchesAt pat (skipn j (piece ++ rest)) = false) ->
    let S := matchStarts off (fst (markParts pat n (splitLoop fuel pat piece rest))) in
    (forall i, In i S ->
       off + length piece <= i /\
       matchesAt pat (skipn (i - off) (piece ++ rest)) = true) /\
    (forall i j, In i S -> In j S -> j < i -> j + length pat <= i) /\
    (forall i, off <= i ->
       matchesAt pat (skipn (i - off) (piece ++ rest)) = true ->
       In i S \/ exists j, In j S /\ j < i < j + length pat).
Proof.
  intros Hpat. induction fuel as [|fuel IH]; intros piece rest off n Hfuel Inv; [lia|].
  assert (Hlen : 0 < length pat) by (destruct pat; [congruence|simpl; lia]).
  assert (Hmiss : strEq (toLowerCase piece) (toLowerCase pat) = false).
  { destruct (strEq (toLowerCase piece) (toLowerCase pat)) eqn:E; [|reflexivity].
    exfalso. pose proof (strEq_length _ _ E) as Hl.
    rewrite !toLowerCase_length in Hl.
    assert (H0 : 0 < length piece) by lia.
    specialize (Inv 0 H0). simpl in Inv. rewrite matchesAt_lower in Inv.
    rewrite firstn_app, <- Hl, firstn_all, Nat.sub_diag, firstn_O, app_nil_r in Inv.
    congruence. }
  cbn [splitLoop]. destruct rest as [|c rest'].
  - rewrite markParts_miss by exact Hmiss. cbn [fst markParts matchStarts isMatch app].
    repeat split; try (intros; contradiction).
    intros i Hi Hocc. exfalso.
    destruct (Nat.lt_ge_cases (i - off) (length piece)) as [Hlt|Hge].
    + rewrite (Inv _ Hlt) in Hocc. discriminate.
    + rewrite skipn_all2 in Hocc by (rewrite length_app; simpl; lia).
      rewrite matchesAt_nil in Hocc by exact Hpat. discriminate.
  - rewrite (isEmpty_false pat Hpat). cbn [andb negb]. rewrite andb_true_r.
    destruct (matchesAt pat (c :: rest')) eqn:Hm.
    + (* a match at the scan position *)
      pose proof (matchesAt_length _ _ Hm) as Hml.
      assert (Hhit : strEq (toLowerCase (firstn (length pat) (c :: rest')))
                           (toLowerCase pat) = true)
        by (now rewrite <- matchesAt_lower).
      rewrite markParts_miss by exact Hmiss.
      cbn [fst]. rewrite markParts_hit by exact Hhit.
      cbn [fst matchStarts isMatch text app].
      rewrite length_firstn, Nat.min_l by exact Hml.
      set (rest2 := skipn (length pat) (c :: rest')).
      assert (Hfuel2 : length rest2 < fuel).
      { unfold rest2. rewrite length_skipn. cbn [length] in *. lia. }
      destruct (IH [] rest2 (off + length piece + length pat) (n + 1)%Z Hfuel2)
        as (A & B & C); [simpl; intros; lia|].
      set (S2 := matchStarts (off + length piece + length pat)
                   (fst (markParts pat (n + 1) (splitLoop fuel pat [] rest2)))) in *.
      assert (Hskip : forall i, off + length piece + length pat <= i ->
                skipn (i - off) (piece ++ c :: rest')
                = skipn (i - (off + length piece + length pat)) ([] ++ rest2)).
      { intros i Hi. unfold rest2. simpl app. rewrite skipn_skipn, skipn_app.
        rewrite skipn_all2 by lia. simpl app. f_equal. lia. }
      split; [|split].
      * intros i [<-|Hi].
        -- split; [lia|]. replace (off + length piece - off) with (length piece) by lia.
           rewrite skipn_app, skipn_all, Nat.sub_diag. exact Hm.
        -- destruct (A i Hi) as [A1 A2]. simpl in A1. split; [lia|].
           rewrite Hskip by lia. exact A2.
      * intros i j [<-|Hi] [<-|Hj] Hlt; try lia.
        -- destruct (A j Hj) as [A1 _]. simpl in A1. lia.
        -- destruct (A i Hi) as [A1 _]. simpl in A1. lia.
        -- now apply B.
      * intros i Hi Hocc.
        destruct (Nat.lt_ge_cases (i - off) (length piece)) as [Hlt|Hge].
        { rewrite (Inv _ Hlt) in Hocc. discriminate. }
        destruct (Nat.eq_dec i (off + length piece)) as [->|Hne]; [left; now left|].
        destruct (Nat.lt_ge_cases i (off + length piece + length pat)) as [Hin|Hout].
        { right. exists (off + length piece). split; [now left|lia]. }
        rewrite Hskip in Hocc by exact Hout.
        destruct (C i Hout Hocc) as [Hi2|(j & Hj & Hji)].
        -- left. now right.
        -- right. exists j. split; [now right|exact Hji].
    + (* no match: the scan position moves on by one code unit *)
      assert (Happ : (piece ++ [c]) ++ rest' = piece ++ c :: rest')
        by (now rewrite <- app_assoc).
      destruct (IH (piece ++ [c]) rest' off n) as (A & B & C).
      * simpl in Hfuel. lia.
      * intros j Hj. rewrite Happ. rewrite length_app in Hj. simpl in Hj.
        destruct (Nat.eq_dec j (length piece)) as [->|Hne].
        -- rewrite skipn_app, skipn_all, Nat.sub_diag. exact Hm.
        -- apply Inv. lia.
      * rewrite Happ in A, C. split; [|split]; [|exact B|exact C].
        intros i Hi. destruct (A i Hi) as [A1 A2].
        rewrite length_app in A1. simpl in A1. split; [lia|exact A2].
Qed.

Lemma occursAt_matchesAt (q s : str) (i : nat) :
  occursAt q s i = matchesAt q (skipn i s).
Proof. unfold occursAt. now rewrite matchesAt_lower. Qed.

(** The marked parts of a paragraph that is searched are the leftmost
    non-overlapping occurrences of the query. *)
Lemma splitRegex_leftmost (q paragraph : str) (n : Z) :
  q <> [] ->
  let ps := fst (markParts q n (splitRegex q paragraph)) in
  forall i, In i (matchStarts 0 ps) <->
            occursAt q paragraph i = true /\
            forall j, In j (matchStarts 0 ps) -> ~ (j < i < j + length q).
Proof.
  intros Hq ps.
  assert (G : (forall i, In i (matchStarts 0 ps) ->
                 0 + 0 <= i /\ matchesAt q (skipn (i - 0) paragraph) = true) /\
              (forall i j, In i (matchStarts 0 ps) -> In j (matchStarts 0 ps) ->
                 j < i -> j + length q <= i) /\
              (forall i, 0 <= i -> matchesAt q (skipn (i - 0) paragraph) = true ->
                 In i (matchStarts 0 ps) \/
                 exists j, In j (matchStarts 0 ps) /\ j < i < j + length q)).
  { subst ps. destruct paragraph as [|c s].
    - unfold splitRegex. rewrite matchesAt_nil by exact Hq.
      rewrite markParts_miss.
      + cbn. repeat split; try (intros; contradiction).
        intros i _ H. rewrite skipn_nil, matchesAt_nil in H by exact Hq.
        discriminate.
      + destruct q; [congruence|reflexivity].
    - unfold splitRegex.
      apply (splitLoop_greedy q (2 * length (c :: s) + 1) Hq [] (c :: s) 0 n).
      + lia.
      + simpl; intros; lia. }
  destruct G as (A & B & C). intros i.
  rewrite occursAt_matchesAt. split.
  - intros Hi. destruct (A i Hi) as [_ Hocc]. rewrite Nat.sub_0_r in Hocc.
    split; [exact Hocc|]. intros j Hj [H1 H2].
    specialize (B i j Hi Hj H1). lia.
  - intros [Hocc Hfree]. rewrite <- (Nat.sub_0_r i) in Hocc.
    destruct (C i (Nat.le_0_l i) Hocc) as [Hi|(j & Hj & Hji)]; [exact Hi|].
    exfalso. exact (Hfree j Hj Hji).
Qed.

Lemma processParagraph_ptext (q : str) (n : Z) (paragraph : str) :
  ptext (fst (processParagraph q n paragraph)) = paragraph.
Proof.
  unfold processParagraph. destruct (isEmpty (trim paragraph)); [reflexivity|].
  now destruct (markParts q n (splitRegex q paragraph)).
Qed.

Lemma processParagraph_parts (q : str) (n : Z) (paragraph : str) :
  parts (fst (processParagraph q n paragraph))
  = if isEmpty (trim paragraph)
    then [mkPart paragraph false (-1)]
    else fst (markParts q n (splitRegex q paragraph)).
Proof.
  unfold processParagraph. destruct (isEmpty (trim paragraph)); [reflexivity|].
  now destruct (markParts q n (splitRegex q paragraph)).
Qed.

Lemma processParagraph_rendered (q : str) (n : Z) (paragraph : str) :
  renderedText (fst (processParagraph q n paragraph)) = paragraph.
Proof.
  unfold renderedText. rewrite processParagraph_parts.
  destruct (isEmpty (trim paragraph)).
  - simpl. apply app_nil_r.
  - rewrite markParts_text. apply concat_splitRegex.
Qed.

Lemma processParagraph_count (q : str) (n : Z) (paragraph : str) :
  let ps := parts (fst (processParagraph q n paragraph)) in
  let k := length (filter isMatch ps) in
  snd (processParagraph q n paragraph) = (n + Z.of_nat k)%Z /\
  matchIndices ps = map (fun i => (n + Z.of_nat i)%Z) (seq 0 k).
Proof.
  cbn zeta. rewrite processParagraph_parts.
  unfold processParagraph. destruct (isEmpty (trim paragraph)).
  - simpl. split; [lia|reflexivity].
  - pose proof (markParts_count q (splitRegex q paragraph) n) as H.
    now destruct (markParts q n (splitRegex q paragraph)).
Qed.

Lemma processParagraphs_cons (q : str) (n : Z) (p : str) (rest : list str) :
  processParagraphs q n (p :: rest)
  = (fst (processParagraph q n p)
       :: fst (processParagraphs q (snd (processParagraph q n p)) rest),
     snd (processParagraphs q (snd (processParagraph q n p)) rest)).
Proof.
  simpl. destruct (processParagraph q n p) as [p' n1]. simpl.
  now destruct (processParagraphs q n1 rest).
Qed.

Lemma processParagraphs_ptext (q : str) (paragraphs : list str) (n : Z) :
  map ptext (fst (processParagraphs q n paragraphs)) = paragraphs.
Proof.
  revert n; induction paragraphs as [|p rest IH]; intros n; [reflexivity|].
  rewrite processParagraphs_cons. simpl.
  now rewrite processParagraph_ptext, IH.
Qed.

Lemma processParagraphs_rendered (q : str) (paragraphs : list str) (n : Z) :
  map renderedText (fst (processParagraphs q n paragraphs)) = paragraphs.
Proof.
  revert n; induction paragraphs as [|p rest IH]; intros n; [reflexivity|].
  rewrite processParagraphs_cons. simpl.
  now rewrite processParagraph_rendered, IH.
Qed.

(** Every paragraph of the result is the result of the callback on a line,
    for some value of the counter. *)
Lemma processParagraphs_each (q : str) (paragraphs : list str) (n : Z) (P : Paragraph -> Prop) :
  (forall m p, P (fst (processParagraph q m p))) ->
  Forall P (fst (processParagraphs q n paragraphs)).
Proof.
  intros H. revert n; induction paragraphs as [|p rest IH]; intros n; [constructor|].
  rewrite processParagraphs_cons. simpl. constructor; [apply H|apply IH].
Qed.

Lemma seq_from (a b : nat) : seq a b = map (fun i => a + i) (seq 0 b).
Proof.
  revert a; induction b as [|b IH]; intros a; [reflexivity|].
  simpl. rewrite Nat.add_0_r. f_equal.
  rewrite (IH (S a)), (IH 1), map_map. apply map_ext. intros; lia.
Qed.

Lemma processParagraphs_count (q : str) (paragraphs : list str) (n : Z) :
  let ps := allParts (fst (processParagraphs q n paragraphs)) in
  let k := length (filter isMatch ps) in
  snd (processParagraphs q n paragraphs) = (n + Z.of_nat k)%Z /\
  matchIndices ps = map (fun i => (n + Z.of_nat i)%Z) (seq 0 k).
Proof.
  revert n; induction paragraphs as [|p rest IH]; intros n.
  - simpl. split; [lia|reflexivity].
  - rewrite processParagraphs_cons. cbn zeta in *. cbn [fst snd].
    destruct (processParagraph_count q n p) as [H1 H2].
    destruct (IH (snd (processParagraph q n p))) as [IH1 IH2].
    unfold allParts in *. cbn [flat_map]. unfold matchIndices in *.
    rewrite filter_app, map_app, length_app, seq_app, map_app.
    rewrite IH1, IH2, H1, H2. clear.
    generalize (length (filter isMatch (parts (fst (processParagraph q n p))))).
    intros a.
    split; [lia|]. f_equal. cbn [Nat.add].
    rewrite (seq_from a), map_map. apply map_ext. intros; lia.
Qed.

(** C10. For every transcript and every query, the empty one included, the
    paragraphs of the result are the lines of the transcript, the parts of
    each paragraph concatenate to that paragraph, and what is rendered,
    joined by line feeds, is the transcript: highlighting cuts the text up
    and neither adds, drops nor changes a character. *)
Theorem C10_highlighting_preserves_text (text searchQuery : str) :
  let ps := processedParagraphs text searchQuery in
  map ptext ps = splitLines text /\
  Forall (fun p => renderedText p = ptext p) ps /\
  joinLines (map renderedText ps) = text.
Proof.
  cbn zeta. unfold processedParagraphs, search.
  destruct (isEmpty searchQuery).
  - cbn [fst]. rewrite !map_map. cbn [ptext].
    assert (R : map (fun p => renderedText (mkParagraph p [mkPart p false (-1)]))
                    (splitLines text) = splitLines text).
    { rewrite <- (map_id (splitLines text)) at 2. apply map_ext.
      intros p. unfold renderedText. simpl. apply app_nil_r. }
    rewrite R, map_id. repeat split.
    + apply Forall_map, Forall_forall. intros p _.
      unfold renderedText. simpl. apply app_nil_r.
    + apply joinLines_splitLines.
  - rewrite processParagraphs_ptext, processParagraphs_rendered.
    repeat split.
    + apply processParagraphs_each. intros m p.
      now rewrite processParagraph_rendered, processParagraph_ptext.
    + apply joinLines_splitLines.
Qed.




(* ================================================================== *)
(** ** TranscriptionDisplay: match navigation *)
(* ================================================================== *)

(** C2. For a match count n > 0 and an index i in [0, n), next gives
    (i + 1) mod n and previous gives (i - 1 + n) mod n; both stay in
    [0, n), and each undoes the other. *)
Theorem C2_match_navigation_cycles (n i : Z) :
  (0 < n)%Z -> (0 <= i < n)%Z ->
  handleNextMatch n i = ((i + 1) mod n)%Z /\
  handlePrevMatch n i = ((i - 1 + n) mod n)%Z /\
  (0 <= handleNextMatch n i < n)%Z /\
  (0 <= handlePrevMatch n i < n)%Z /\
  handlePrevMatch n (handleNextMatch n i) = i /\
  handleNextMatch n (handlePrevMatch n i) = i.
Proof.
  intros Hn Hi. unfold handleNextMatch, handlePrevMatch.
  assert (Hnext : Z.rem (i + 1) n = ((i + 1) mod n)%Z)
    by (apply Z.rem_mod_nonneg; lia).
  assert (Hprev : Z.rem (i - 1 + n) n = ((i - 1 + n) mod n)%Z)
    by (apply Z.rem_mod_nonneg; lia).
  rewrite Hnext, Hprev.
  pose proof (Z.mod_pos_bound (i + 1) n Hn) as B1.
  pose proof (Z.mod_pos_bound (i - 1 + n) n Hn) as B2.
  repeat split; try lia.
  - rewrite Z.rem_mod_nonneg by lia.
    destruct (Z.eq_dec (i + 1) n) as [E|E].
    + rewrite E, Z.mod_same by lia. replace (0 - 1 + n)%Z with i by lia.
      apply Z.mod_small; lia.
    + rewrite (Z.mod_small (i + 1) n) by lia.
      replace (i + 1 - 1 + n)%Z with (i + 1 * n)%Z by lia.
      rewrite Z.mod_add by lia. apply Z.mod_small; lia.
  - rewrite Z.rem_mod_nonneg by lia.
    destruct (Z.eq_dec i 0) as [E|E].
    + subst i. replace (0 - 1 + n)%Z with (n - 1)%Z by lia.
      rewrite (Z.mod_small (n - 1) n) by lia.
      replace (n - 1 + 1)%Z with n by lia. apply Z.mod_same; lia.
    + replace (i - 1 + n)%Z with (i - 1 + 1 * n)%Z by lia.
      rewrite Z.mod_add by lia. rewrite (Z.mod_small (i - 1) n) by lia.
      replace (i - 1 + 1)%Z with i by lia. apply Z.mod_small; lia.
Qed.

Lemma C2_match_navigation_cycles_witness :
  (0 < 3)%Z /\ (0 <= 2 < 3)%Z /\
  handleNextMatch 3 2 = ((2 + 1) mod 3)%Z /\
  handlePrevMatch 3 2 = ((2 - 1 + 3) mod 3)%Z /\
  (0 <= handleNextMatch 3 2 < 3)%Z /\
  (0 <= handlePrevMatch 3 2 < 3)%Z /\
  handlePrevMatch 3 (handleNextMatch 3 2) = 2%Z /\
  handleNextMatch 3 (handlePrevMatch 3 2) = 2%Z.
Proof.
  split; [lia|]. split; [lia|].
  apply (C2_match_navigation_cycles 3 2); lia.
Defined.

(* ================================================================== *)
(** ** MediaUploader and App *)
(* ================================================================== *)

Import Types.

Section Reachability.

Variable apiKey : str.
Variable createObjectURL : DOM.File -> str.

Let step := App.step apiKey createObjectURL.
Let enabled := App.enabled apiKey.
Let reachable := App.reachable apiKey createObjectURL.

Lemma consistent_start : App.consistent App.start.
Proof. repeat split; simpl; congruence. Qed.

Lemma consistent_step (w : App.World) (e : App.Event) :
  App.consistent w -> enabled w e = true -> App.consistent (step w e).
Proof.
  destruct w as [[mf st tr er el tab] ue pend ch].
  unfold App.consistent, enabled, step.
  intros (Hp & Hm & Ht) He. cbn in Hp, Hm, Ht.
  destruct e as [f| |o| |t| |e].
  - (* SelectFile *)
    cbn in He. destruct mf; [discriminate|]. specialize (Hm eq_refl). subst st.
    cbn [App.step].
    destruct (MediaUploader.validateAndProcessFile createObjectURL f) as [err [m|]];
      cbn in *; repeat split; solve [congruence | assumption].
  - (* StartTranscription *)
    cbn in He. destruct mf as [m|]; [|discriminate].
    destruct st; try discriminate; cbn in *; subst pend;
      (repeat split; [congruence|intros _; apply Ht; congruence]).
  - (* TranscribeSettled *)
    cbn in He. apply andb_true_iff in He as [He _].
    assert (Hst : st = TRANSCRIBING)
      by (destruct st; cbn in Hp; subst pend; try discriminate; reflexivity).
    subst st. cbn in Hp. subst pend.
    destruct mf as [m|]; [|specialize (Hm eq_refl); discriminate].
    destruct o as [r|msg]; cbn; repeat split; try congruence.
    intros _. apply Ht. discriminate.
  - (* Reset *)
    cbn in He.
    destruct st; cbn in *; repeat split; try assumption.
    rewrite Ht in He by discriminate.
    destruct mf, tab; discriminate.
  - (* SelectTab *)
    destruct st; cbn in *; repeat split; assumption.
  - (* Tick *)
    cbn. repeat split; assumption.
  - (* Assistant *)
    cbn. repeat split; assumption.
Qed.

Lemma reachable_consistent (w : App.World) : reachable w -> App.consistent w.
Proof.
  induction 1 as [|w e _ IH He]; [apply consistent_start|].
  now apply consistent_step.
Qed.

(** In the COMPLETED state the page offers nothing but Reset that touches
    the status or the transcript. *)
Lemma completed_step (w : App.World) (e : App.Event) :
  App.consistent w ->
  App.status (App.app w) = COMPLETED ->
  enabled w e = true ->
  App.isReset e = false ->
  App.status (App.app (step w e)) = COMPLETED /\
  App.transcription (App.app (step w e)) = App.transcription (App.app w).
Proof.
  destruct w as [[mf st tr er el tab] ue pend ch].
  unfold App.consistent, enabled, step.
  intros (Hp & Hm & Ht) Hst He Hr. cbn in Hp, Hm, Ht, Hst. subst st.
  cbn in Hp. subst pend.
  destruct e as [f| |o| |t| |e]; try discriminate; cbn in He.
  - destruct mf; [discriminate|]. specialize (Hm eq_refl). discriminate.
  - destruct mf; discriminate.
  - cbn. split; reflexivity.
  - split; reflexivity.
Qed.

Lemma completed_steps (es : list App.Event) (w : App.World) :
  reachable w ->
  App.status (App.app w) = COMPLETED ->
  App.allEnabled apiKey createObjectURL w es = true ->
  forallb (fun e => negb (App.isReset e)) es = true ->
  App.status (App.app (App.steps apiKey createObjectURL w es)) = COMPLETED /\
  App.transcription (App.app (App.steps apiKey createObjectURL w es))
  = App.transcription (App.app w).
Proof.
  revert w; induction es as [|e es IH]; intros w Hw Hst Hen Hnr; [split; [exact Hst|reflexivity]|].
  cbn in Hen, Hnr. apply andb_true_iff in Hen as [He Hes].
  apply andb_true_iff in Hnr as [Hr Hrs]. apply negb_true_iff in Hr.
  destruct (completed_step w e (reachable_consistent w Hw) Hst He Hr) as [S1 T1].
  cbn [App.steps fold_left].
  destruct (IH (step w e)) as [S2 T2]; try assumption.
  - now apply App.reach_step.
  - split; [exact S2|]. unfold App.steps, step in *. congruence.
Qed.

End Reachability.

(** A call can only settle on a page that is transcribing a loaded file
    and has no transcript yet. *)
Lemma settle_enabled_shape (apiKey : str) (w : App.World) (o : App.Outcome) :
  App.consistent w ->
  App.enabled apiKey w (App.TranscribeSettled o) = true ->
  App.transcribeMediaSettles apiKey o = true /\
  exists m er el tab ue ch,
    w = {| App.app := {| App.mediaFile := Some m; App.status := TRANSCRIBING;
                         App.transcription := []; App.error := er;
                         App.elapsedTime := el; App.activeTab := tab |};
           App.uploadError := ue; App.pending := 1; App.chat := ch |}.
Proof.
  destruct w as [[mf st tr er el tab] ue pend ch].
  intros (Hp & Hm & Ht) He. cbn in Hp, Hm, Ht, He.
  apply andb_true_iff in He as [He1 He2]. split; [exact He2|].
  destruct st; cbn in Hp; subst pend; try discriminate.
  destruct mf as [m|]; [|specialize (Hm eq_refl); discriminate].
  rewrite Ht by discriminate.
  now exists m, er, el, tab, ue, ch.
Qed.

Lemma pending_step (apiKey : str) (createObjectURL : DOM.File -> str)
      (w : App.World) (e : App.Event) :
  e = App.StartTranscription \/
  App.pending (App.step apiKey createObjectURL w e) <= App.pending w.
Proof.
  destruct e as [f| |o| |t| |e]; [right|left; reflexivity|right..]; cbn.
  - destruct (MediaUploader.validateAndProcessFile createObjectURL f) as [err [m|]];
      cbn; lia.
  - lia.
  - lia.
  - lia.
  - lia.
  - lia.
Qed.

(** C5. A file whose MIME type starts with neither audio/ nor video/, or
    whose size exceeds 50 * 1024 * 1024, leaves a visible error message in
    the uploader and [onFileSelect] is not called: the state of the
    application, the outstanding call and the assistant are as before.
    Every other file is handed to [onFileSelect] with no error, tagged
    audio when its MIME type starts with audio/ and video otherwise, and
    becomes the loaded media file. *)
Theorem C5_file_validation (apiKey : str) (createObjectURL : DOM.File -> str)
        (f : DOM.File) :
  let isAudio := startsWith (lit "audio/") (DOM.type f) in
  let isVideo := startsWith (lit "video/") (DOM.type f) in
  ((isAudio = false /\ isVideo = false) \/ (DOM.size f > 50 * 1024 * 1024)%Z ->
   exists msg,
     MediaUploader.validateAndProcessFile createObjectURL f = (Some msg, None) /\
     MediaUploader.errorVisible (Some msg) = true /\
     forall w,
       let w' := App.step apiKey createObjectURL w (App.SelectFile f) in
       App.app w' = App.app w /\ App.pending w' = App.pending w /\
       App.chat w' = App.chat w /\ App.uploadError w' = Some msg) /\
  ((isAudio = true \/ isVideo = true) /\ (DOM.size f <= 50 * 1024 * 1024)%Z ->
   let m := {| file := f;
               previewUrl := createObjectURL f;
               type := if isAudio then audio else video |} in
   MediaUploader.validateAndProcessFile createObjectURL f = (None, Some m) /\
   forall w,
     App.mediaFile (App.app (App.step apiKey createObjectURL w (App.SelectFile f)))
     = Some m).
Proof.
  cbn zeta. unfold MediaUploader.validateAndProcessFile, MediaUploader.sizeLimit.
  split.
  - intros H.
    destruct (startsWith (lit "audio/") (DOM.type f)) eqn:Ea;
    destruct (startsWith (lit "video/") (DOM.type f)) eqn:Ev; cbn [negb andb];
      try (exists MediaUploader.invalidTypeMessage; repeat split;
           cbn [App.step]; unfold MediaUploader.validateAndProcessFile;
           rewrite Ea, Ev; reflexivity);
      (assert (Hs : (DOM.size f >? 50 * 1024 * 1024)%Z = true)
         by (apply Z.gtb_lt; destruct H as [[? ?]|?]; [discriminate|lia]);
       rewrite Hs; exists MediaUploader.tooLargeMessage; repeat split;
       cbn [App.step]; unfold MediaUploader.validateAndProcessFile, MediaUploader.sizeLimit;
       rewrite Ea, Ev, Hs; reflexivity).
  - intros [Hav Hs].
    assert (Hs' : (DOM.size f >? 50 * 1024 * 1024)%Z = false)
      by (rewrite Z.gtb_ltb; apply Z.ltb_ge; lia).
    assert (Hty : negb (startsWith (lit "audio/") (DOM.type f))
                  && negb (startsWith (lit "video/") (DOM.type f)) = false).
    { destruct Hav as [-> | ->]; [reflexivity|apply andb_false_r]. }
    rewrite Hty, Hs'. split; [reflexivity|].
    intros w. cbn [App.step]. unfold MediaUploader.validateAndProcessFile, MediaUploader.sizeLimit.
    rewrite Hty, Hs'. destruct w as [[mf st tr er el tab] ue pend ch].
    destruct st; reflexivity.
Qed.

Lemma C5_file_validation_witness :
  (exists msg,
     MediaUploader.validateAndProcessFile Sample.createObjectURL Sample.notes
     = (Some msg, None) /\
     MediaUploader.errorVisible (Some msg) = true /\
     forall w,
       let w' := App.step Sample.apiKey Sample.createObjectURL w
                          (App.SelectFile Sample.notes) in
       App.app w' = App.app w /\ App.pending w' = App.pending w /\
       App.chat w' = App.chat w /\ App.uploadError w' = Some msg) /\
  (exists msg,
     MediaUploader.validateAndProcessFile Sample.createObjectURL Sample.huge
     = (Some msg, None) /\
     MediaUploader.errorVisible (Some msg) = true /\
     forall w,
       let w' := App.step Sample.apiKey Sample.createObjectURL w
                          (App.SelectFile Sample.huge) in
       App.app w' = App.app w /\ App.pending w' = App.pending w /\
       App.chat w' = App.chat w /\ App.uploadError w' = Some msg) /\
  (MediaUploader.validateAndProcessFile Sample.createObjectURL Sample.clip
   = (None, Some {| file := Sample.clip;
                    previewUrl := Sample.createObjectURL Sample.clip;
                    type := video |}) /\
   forall w,
     App.mediaFile (App.app (App.step Sample.apiKey Sample.createObjectURL w
                                      (App.SelectFile Sample.clip)))
     = Some {| file := Sample.clip;
               previewUrl := Sample.createObjectURL Sample.clip;
               type := video |}).
Proof.
  split; [|split].
  - apply (C5_file_validation Sample.apiKey Sample.createObjectURL Sample.notes).
    left. split; reflexivity.
  - apply (C5_file_validation Sample.apiKey Sample.createObjectURL Sample.huge).
    right. reflexivity.
  - apply (C5_file_validation Sample.apiKey Sample.createObjectURL Sample.clip).
    split; [right; reflexivity|discriminate].
Defined.

(** C6. From every state of the page, reset gives status IDLE, an empty
    transcript, no media file and no error message, with the transcript tab
    active; the assistant panel is no longer rendered, so its chat session
    and its messages are gone. *)
Theorem C6_reset_clears_everything (apiKey : str) (createObjectURL : DOM.File -> str)
        (w : App.World) :
  let s' := App.run App.handleReset (App.app w) in
  let w' := App.step apiKey createObjectURL w App.Reset in
  (App.status s' = IDLE /\ App.transcription s' = [] /\
   App.mediaFile s' = None /\ App.error s' = None /\
   App.activeTab s' = App.transcript) /\
  (App.status (App.app w') = IDLE /\ App.transcription (App.app w') = [] /\
   App.mediaFile (App.app w') = None /\ App.error (App.app w') = None /\
   App.activeTab (App.app w') = App.transcript) /\
  App.assistantShown (App.app w') = false /\
  App.chat w' = None.
Proof.
  destruct w as [[mf st tr er el tab] ue pend ch].
  destruct st; cbn; repeat split.
Qed.

(** C3. When the remote call succeeds, [handleTranscribe] started in the
    IDLE state with a media file issues one call for that file and moves the
    status through IDLE, PROCESSING_FILE, TRANSCRIBING, COMPLETED, setting
    the transcript once, to the result.  On the page, Start Transcription
    from IDLE leaves one call outstanding in the TRANSCRIBING state, and its
    result completes the session.  From a reachable COMPLETED page, whatever
    the page offers short of a reset keeps the status and the transcript:
    nothing that can happen there rewrites the transcript. *)
Theorem C3_transcription_success (apiKey : str) (createObjectURL : DOM.File -> str) :
  (forall (s : App.State) (m : MediaFile) (result : str),
     App.mediaFile s = Some m ->
     App.status s = IDLE ->
     let calls := fst (App.handleTranscribe_begin s)
                  ++ App.handleTranscribe_settle (App.Resolved result) in
     snd (App.handleTranscribe_begin s) = Some (file m) /\
     App.status s :: App.statusesSet calls
     = [IDLE; PROCESSING_FILE; TRANSCRIBING; COMPLETED] /\
     App.transcriptsSet calls = [result] /\
     App.status (App.run calls s) = COMPLETED /\
     App.transcription (App.run calls s) = result) /\
  (forall (w : App.World) (result : str),
     App.reachable apiKey createObjectURL w ->
     App.status (App.app w) = IDLE ->
     App.enabled apiKey w App.StartTranscription = true ->
     let w1 := App.step apiKey createObjectURL w App.StartTranscription in
     let w2 := App.step apiKey createObjectURL w1
                        (App.TranscribeSettled (App.Resolved result)) in
     App.status (App.app w1) = TRANSCRIBING /\
     App.transcription (App.app w1) = [] /\
     App.pending w1 = 1 /\
     App.status (App.app w2) = COMPLETED /\
     App.transcription (App.app w2) = result /\
     App.pending w2 = 0) /\
  (forall (w : App.World) (es : list App.Event),
     App.reachable apiKey createObjectURL w ->
     App.status (App.app w) = COMPLETED ->
     App.allEnabled apiKey createObjectURL w es = true ->
     forallb (fun e => negb (App.isReset e)) es = true ->
     App.status (App.app (App.steps apiKey createObjectURL w es)) = COMPLETED /\
     App.transcription (App.app (App.steps apiKey createObjectURL w es))
     = App.transcription (App.app w)).
Proof.
  split; [|split].
  - intros [mf st tr er el tab] m result Hm Hst. cbn in Hm, Hst. subst mf st.
    cbn. repeat split.
  - intros w result Hw Hst He.
    destruct (reachable_consistent apiKey createObjectURL w Hw) as (Hp & _ & Ht).
    destruct w as [[mf st tr er el tab] ue pend ch].
    cbn in Hst, He, Hp, Ht. subst st. cbn in Hp. subst pend.
    rewrite Ht by discriminate.
    destruct mf as [m|]; [|discriminate]. cbn. repeat split.
  - intros w es. apply completed_steps.
Qed.

Lemma C3_transcription_success_witness :
  (let s := App.app Sample.loaded in
   let calls := fst (App.handleTranscribe_begin s)
                ++ App.handleTranscribe_settle (App.Resolved (lit "Speaker 1: hello")) in
   snd (App.handleTranscribe_begin s) = Some (file Sample.media) /\
   App.status s :: App.statusesSet calls
   = [IDLE; PROCESSING_FILE; TRANSCRIBING; COMPLETED] /\
   App.transcriptsSet calls = [lit "Speaker 1: hello"] /\
   App.status (App.run calls s) = COMPLETED /\
   App.transcription (App.run calls s) = lit "Speaker 1: hello") /\
  (App.status (App.app Sample.transcribing) = TRANSCRIBING /\
   App.transcription (App.app Sample.transcribing) = [] /\
   App.pending Sample.transcribing = 1 /\
   App.status (App.app Sample.completed) = COMPLETED /\
   App.transcription (App.app Sample.completed) = lit "Speaker 1: hello" /\
   App.pending Sample.completed = 0) /\
  (let es := [App.SelectTab App.assistant;
              App.Assistant (AssistantPanel.QuickAction (lit "Summarize"));
              App.SelectTab App.transcript] in
   App.status (App.app (App.steps Sample.apiKey Sample.createObjectURL
                                  Sample.completed es)) = COMPLETED /\
   App.transcription (App.app (App.steps Sample.apiKey Sample.createObjectURL
                                         Sample.completed es))
   = App.transcription (App.app Sample.completed)).
Proof.
  destruct (C3_transcription_success Sample.apiKey Sample.createObjectURL)
    as (H1 & H2 & H3).
  assert (R1 : App.reachable Sample.apiKey Sample.createObjectURL Sample.loaded)
    by (apply App.reach_step; [apply App.reach_start|reflexivity]).
  assert (R2 : App.reachable Sample.apiKey Sample.createObjectURL Sample.transcribing)
    by (apply App.reach_step; [exact R1|reflexivity]).
  assert (R3 : App.reachable Sample.apiKey Sample.createObjectURL Sample.completed)
    by (apply App.reach_step; [exact R2|reflexivity]).
  split; [|split].
  - apply (H1 (App.app Sample.loaded) Sample.media); reflexivity.
  - apply (H2 Sample.loaded (lit "Speaker 1: hello") R1); reflexivity.
  - apply (H3 Sample.completed _ R3); reflexivity.
Defined.

(** C4. When the remote call throws, the catch branch sets the status to
    ERROR and the error to a non-empty message, and sets no transcript.  On
    a reachable page the failure of the outstanding call leaves status
    ERROR, the error banner shown, the transcript empty as it was, and no
    call outstanding; after it only Start Transcription, pressed by the
    user, issues a call again. *)
Theorem C4_transcription_failure (apiKey : str) (createObjectURL : DOM.File -> str) :
  (forall (s : App.State) (message : option str),
     let calls := App.handleTranscribe_settle (App.Rejected message) in
     App.status (App.run calls s) = ERROR /\
     (exists msg, App.error (App.run calls s) = Some msg /\ msg <> []) /\
     App.transcriptsSet calls = [] /\
     App.transcription (App.run calls s) = App.transcription s /\
     App.mediaFile (App.run calls s) = App.mediaFile s) /\
  (forall (w : App.World) (message : option str),
     App.reachable apiKey createObjectURL w ->
     App.enabled apiKey w (App.TranscribeSettled (App.Rejected message)) = true ->
     let w' := App.step apiKey createObjectURL w
                        (App.TranscribeSettled (App.Rejected message)) in
     App.status (App.app w') = ERROR /\
     App.errorShown (App.app w') = true /\
     App.transcription (App.app w) = [] /\
     App.transcription (App.app w') = [] /\
     App.pending w' = 0 /\
     forall e, App.enabled apiKey w' e = true ->
               0 < App.pending (App.step apiKey createObjectURL w' e) ->
               e = App.StartTranscription).
Proof.
  split.
  - intros [mf st tr er el tab] message. cbn. repeat split.
    exists (orElse message App.defaultError). split; [reflexivity|].
    destruct message as [[|c m]|]; discriminate.
  - intros w message Hw He.
    destruct (settle_enabled_shape apiKey w _
                (reachable_consistent apiKey createObjectURL w Hw) He)
      as (Hs & m & er & el & tab & ue & ch & ->).
    cbn in Hs. destruct message as [[|c msg]|]; try discriminate.
    cbn zeta. repeat split.
    intros e _ Hpos.
    match type of Hpos with 0 < App.pending (App.step _ _ ?w' _) =>
      assert (P' : App.pending w' = 0) by reflexivity;
      destruct (pending_step apiKey createObjectURL w' e) as [E|L];
        [exact E|rewrite P' in L; lia]
    end.
Qed.

Lemma C4_transcription_failure_witness :
  let failure := App.TranscribeSettled (App.Rejected (Some (lit "quota exceeded"))) in
  let w' := Sample.step Sample.transcribing failure in
  App.enabled Sample.apiKey Sample.transcribing failure = true /\
  App.status (App.app w') = ERROR /\
  App.errorShown (App.app w') = true /\
  App.transcription (App.app Sample.transcribing) = [] /\
  App.transcription (App.app w') = [] /\
  App.pending w' = 0 /\
  forall e, App.enabled Sample.apiKey w' e = true ->
            0 < App.pending (App.step Sample.apiKey Sample.createObjectURL w' e) ->
            e = App.StartTranscription.
Proof.
  cbn zeta. split; [reflexivity|].
  destruct (C4_transcription_failure Sample.apiKey Sample.createObjectURL) as [_ H].
  apply (H Sample.transcribing (Some (lit "quota exceeded"))); [|reflexivity].
  apply App.reach_step; [|reflexivity].
  apply App.reach_step; [apply App.reach_start|reflexivity].
Defined.

(* ================================================================== *)
(** ** AssistantPanel *)
(* ================================================================== *)

Import AssistantPanel.

(** The guard of [handleSend]. *)
Lemma handleSend_begin_blocked (s : State) (text : str) :
  isEmpty (trim text) || isNull (chatSession s) || isLoading s = true ->
  handleSend_begin s text = (s, None).
Proof. intros H. unfold handleSend_begin. now rewrite H. Qed.

Lemma handleSend_begin_passes (s : State) (text : str) (session : Chat) :
  chatSession s = Some session ->
  isLoading s = false ->
  isEmpty (trim text) = false ->
  handleSend_begin s text
  = ({| messages := messages s ++ [{| role := user; text := text |}];
        input := []; isLoading := true; chatSession := Some session |},
     Some (session, text)).
Proof.
  intros Hc Hl Ht. unfold handleSend_begin. rewrite Hc, Hl, Ht. reflexivity.
Qed.

(** Either the guard blocks, or a session exists, nothing is awaited and
    the text is not blank. *)
Lemma handleSend_begin_cases (s : State) (text : str) :
  handleSend_begin s text = (s, None) \/
  exists session,
    chatSession s = Some session /\ isLoading s = false /\
    isEmpty (trim text) = false.
Proof.
  unfold handleSend_begin.
  destruct (isEmpty (trim text)) eqn:Ht; [now left|].
  destruct (chatSession s) as [session|] eqn:Hc; [|now left].
  destruct (isLoading s) eqn:Hl; [now left|].
  right. now exists session.
Qed.

Lemma turnOrder_user (l : list Message) (m : Message) :
  role m = user ->
  turnOrder false l = true -> turnOrder true (l ++ [m]) = true.
Proof.
  intros Hm.
  enough (H : (turnOrder false l = true -> turnOrder true (l ++ [m]) = true) /\
              (forall a, turnOrder false (a :: l) = true ->
                         turnOrder true (a :: l ++ [m]) = true))
    by apply H.
  induction l as [|b l [IH1 IH2]].
  - split.
    + intros _. simpl. now rewrite Hm.
    + intros a. simpl. destruct (role a); [discriminate|]. now rewrite Hm.
  - split; [apply IH2|].
    intros a. specialize (IH2 b). cbn [turnOrder app] in *.
    destruct (role a), (role b); auto.
Qed.

Lemma turnOrder_model (l : list Message) (m : Message) :
  role m = model ->
  turnOrder true l = true -> turnOrder false (l ++ [m]) = true.
Proof.
  intros Hm.
  enough (H : (turnOrder true l = true -> turnOrder false (l ++ [m]) = true) /\
              (forall a, turnOrder true (a :: l) = true ->
                         turnOrder false (a :: l ++ [m]) = true))
    by apply H.
  induction l as [|b l [IH1 IH2]].
  - split.
    + discriminate.
    + intros a. simpl. destruct (role a); [now rewrite Hm|discriminate].
  - split; [apply IH2|].
    intros a. specialize (IH2 b). cbn [turnOrder app] in *.
    destruct (role a), (role b); auto.
Qed.

Lemma reply_role (o : ChatOutcome) : role (reply o) = model.
Proof. now destruct o. Qed.

(** What holds of every reachable panel: a call is outstanding exactly
    while [isLoading] is set, and the conversation is in turn order. *)
Lemma panel_invariant (apiKey transcription : str) (p : Instance) :
  reachable apiKey transcription p ->
  outstanding p = (if isLoading (state p) then 1 else 0) /\
  turnOrder (isLoading (state p)) (messages (state p)) = true.
Proof.
  induction 1 as [|p e _ [IHo IHt] He].
  - unfold mount, initChat, createChatSession. cbn.
    destruct (isEmpty transcription); [now split|].
    destruct (isEmpty apiKey); now split.
  - assert (Hsend : forall text,
              outstanding (send p text)
              = (if isLoading (state (send p text)) then 1 else 0) /\
              turnOrder (isLoading (state (send p text)))
                        (messages (state (send p text))) = true).
    { intros text. unfold send.
      destruct (handleSend_begin_cases (state p) text) as [E|(session & Hc & Hl & Ht)].
      - rewrite E. cbn. rewrite Nat.add_0_r. now split.
      - rewrite (handleSend_begin_passes _ _ _ Hc Hl Ht). cbn.
        rewrite Hl in IHo, IHt. split; [lia|].
        now apply turnOrder_user. }
    destruct e as [|prompt|v|o]; cbn [step].
    + apply Hsend.
    + apply Hsend.
    + cbn. now split.
    + unfold enabled in He. apply Nat.ltb_lt in He. cbn.
      destruct (isLoading (state p)); [|lia].
      split; [lia|]. apply turnOrder_model; [apply reply_role|exact IHt].
Qed.

(** The count of outstanding calls follows [isLoading] through every
    event, from any panel where it does. *)
Lemma counts_step (p : Instance) (e : Event) :
  outstanding p = (if isLoading (state p) then 1 else 0) ->
  enabled p e = true ->
  outstanding (step p e) = (if isLoading (state (step p e)) then 1 else 0).
Proof.
  intros Ho He.
  assert (Hsend : forall text,
            outstanding (send p text)
            = (if isLoading (state (send p text)) then 1 else 0)).
  { intros text. unfold send.
    destruct (handleSend_begin_cases (state p) text) as [E|(session & Hc & Hl & Ht)].
    - rewrite E. cbn. now rewrite Nat.add_0_r.
    - rewrite (handleSend_begin_passes _ _ _ Hc Hl Ht). cbn.
      rewrite Hl in Ho. lia. }
  destruct e as [|prompt|v|o]; cbn [step]; try apply Hsend.
  - exact Ho.
  - unfold enabled in He. apply Nat.ltb_lt in He. cbn.
    destruct (isLoading (state p)); lia.
Qed.

(** On every page that can be reached, the assistant panel that is shown
    has a call outstanding exactly while its [isLoading] is set. *)
Lemma page_chat_counts (apiKey : str) (createObjectURL : DOM.File -> str)
      (w : App.World) :
  App.reachable apiKey createObjectURL w ->
  forall p, App.chat w = Some p ->
            outstanding p = (if isLoading (state p) then 1 else 0).
Proof.
  induction 1 as [|w e _ IH He]; [discriminate|].
  assert (Hupd : forall w0 calls p,
            App.chat w0 = App.chat w ->
            App.chat (App.update apiKey w0 calls) = Some p ->
            outstanding p = (if isLoading (state p) then 1 else 0)).
  { intros w0 calls p E. unfold App.update, App.renderChat. cbn [App.chat].
    rewrite E.
    destruct (App.assistantShown _); [|discriminate].
    destruct (App.chat w) as [q|].
    - destruct (strEq _ _); intros H; inversion H; subst; clear H.
      + now apply IH.
      + cbn. assert (L : isLoading (initChat apiKey
                            (App.transcription
                               (App.statusEffect (App.app w0)
                                  (App.run calls (App.app w0)))) (state q))
                         = isLoading (state q)).
        { unfold initChat. destruct (isEmpty _); [reflexivity|].
          now destruct (createChatSession _ _). }
        rewrite L. now apply IH.
    - intros H; inversion H; subst; clear H.
      unfold mount, initChat. cbn.
      destruct (isEmpty _); [reflexivity|].
      now destruct (createChatSession _ _). }
  destruct e as [f| |o| |t| |e]; cbn [App.step].
  - destruct (MediaUploader.validateAndProcessFile createObjectURL f) as [err [m|]].
    + intros p. now apply Hupd.
    + cbn. exact IH.
  - destruct (App.handleTranscribe_begin (App.app w)) as [calls call].
    intros p. now apply Hupd.
  - intros p. now apply Hupd.
  - intros p. now apply Hupd.
  - intros p. now apply Hupd.
  - cbn. exact IH.
  - cbn [App.chat]. cbn in He. destruct (App.chat w) as [q|]; [|discriminate].
    intros p H. inversion H; subst; clear H.
    now apply counts_step; [apply IH|].
Qed.

(** C7, as the code has it.  When the mounted panel awaits a reply, when
    the text is white space only, or when there is no chat session,
    [handleSend] changes nothing and issues no call: the messages, the
    loading flag and the number of outstanding calls stay as they are.
    Hence the panel that is mounted, from its mount on and on every page
    that can be reached, has at most one call of its own outstanding, and
    has one exactly while its [isLoading] is set.  Calls of a panel that
    has been unmounted since are not among them. *)
Theorem C7_send_is_guarded (apiKey transcription : str)
        (createObjectURL : DOM.File -> str) :
  (forall (s : State) (text : str),
     isLoading s = true \/ forallb isWhiteSpace text = true \/ chatSession s = None ->
     handleSend_begin s text = (s, None)) /\
  (forall (p : Instance) (text : str),
     isLoading (state p) = true \/ forallb isWhiteSpace text = true \/
     chatSession (state p) = None ->
     state (send p text) = state p /\
     outstanding (send p text) = outstanding p) /\
  (forall p : Instance,
     reachable apiKey transcription p ->
     outstanding p <= 1 /\
     (outstanding p = 1 <-> isLoading (state p) = true)) /\
  (forall (w : App.World) (p : Instance),
     App.reachable apiKey createObjectURL w ->
     App.chat w = Some p ->
     outstanding p <= 1 /\
     (outstanding p = 1 <-> isLoading (state p) = true)).
Proof.
  assert (G : forall (s : State) (text : str),
            isLoading s = true \/ forallb isWhiteSpace text = true \/
            chatSession s = None ->
            handleSend_begin s text = (s, None)).
  { intros s text H. apply handleSend_begin_blocked.
    destruct H as [H|[H|H]].
    - rewrite H. apply orb_true_r.
    - apply trim_empty_iff in H. now rewrite H.
    - rewrite H. cbn. apply orb_true_iff. left. apply orb_true_r. }
  assert (B : forall p : Instance,
            outstanding p = (if isLoading (state p) then 1 else 0) ->
            outstanding p <= 1 /\
            (outstanding p = 1 <-> isLoading (state p) = true)).
  { intros p Ho. rewrite Ho. destruct (isLoading (state p)); split; try lia;
      split; intros; congruence || lia. }
  split; [exact G|]. split; [|split].
  - intros p text H. unfold send. rewrite (G _ _ H). cbn.
    split; [reflexivity|lia].
  - intros p Hp. apply B. apply (panel_invariant _ _ _ Hp).
  - intros w p Hw Hc. apply B. exact (page_chat_counts _ _ _ Hw p Hc).
Qed.

Lemma C7_send_is_guarded_witness :
  (handleSend_begin (state Sample.asked) (lit "And the quotes?")
   = (state Sample.asked, None)) /\
  (state (send Sample.panel (lit "   ")) = state Sample.panel /\
   outstanding (send Sample.panel (lit "   ")) = outstanding Sample.panel) /\
  (outstanding Sample.asked <= 1 /\
   (outstanding Sample.asked = 1 <-> isLoading (state Sample.asked) = true)) /\
  (App.chat Sample.chatting = Some Sample.panel /\
   outstanding Sample.panel <= 1 /\
   (outstanding Sample.panel = 1 <-> isLoading (state Sample.panel) = true)).
Proof.
  destruct (C7_send_is_guarded Sample.apiKey (lit "Speaker 1: hello")
                               Sample.createObjectURL)
    as (H1 & H2 & H3 & H4).
  split; [|split; [|split]].
  - apply H1. left. reflexivity.
  - apply H2. right. left. reflexivity.
  - apply H3. apply reach_event; [apply reach_mount|reflexivity].
  - split; [reflexivity|].
    apply (H4 Sample.chatting Sample.panel); [|reflexivity].
    repeat (apply App.reach_step; [|reflexivity]). apply App.reach_start.
Defined.

(** The panel lives as long as it is rendered.  Leaving the assistant tab
    while a reply is awaited drops the panel with its messages; coming back
    mounts a fresh one, with a new session, the greeting only, and nothing
    awaited, so that it accepts a send while the call of the dropped panel
    has not settled. *)
Lemma remount_starts_afresh :
  let asking := Sample.step Sample.chatting
                  (App.Assistant (QuickAction (lit "Summarize"))) in
  let away := Sample.step asking (App.SelectTab App.transcript) in
  let back := Sample.step away (App.SelectTab App.assistant) in
  option_map outstanding (App.chat asking) = Some 1 /\
  App.chat away = None /\
  App.chat back = Some Sample.panel /\
  option_map (fun p => outstanding (send p (lit "Summarize"))) (App.chat back)
  = Some 1.
Proof. repeat split. Qed.



(** While a reply is awaited, nothing the panel offers but the settling of
    the call touches the conversation, the loading flag, the session or the
    outstanding call. *)
Lemma waiting_step (q : Instance) (e : Event) :
  isLoading (state q) = true ->
  ChatCalls.notSettled e = true ->
  messages (state (step q e)) = messages (state q) /\
  isLoading (state (step q e)) = true /\
  chatSession (state (step q e)) = chatSession (state q) /\
  outstanding (step q e) = outstanding q.
Proof.
  intros Hl He.
  assert (Hsend : forall text, send q text
                  = {| state := state q; outstanding := outstanding q + 0 |}).
  { intros text. unfold send. rewrite handleSend_begin_blocked; [reflexivity|].
    rewrite Hl. apply orb_true_r. }
  destruct e as [|prompt|v|o]; cbn [step]; try rewrite Hsend; cbn;
    try discriminate; repeat split; try assumption; lia.
Qed.

Lemma waiting_steps (es : list Event) (q : Instance) :
  isLoading (state q) = true ->
  forallb ChatCalls.notSettled es = true ->
  messages (state (fold_left step es q)) = messages (state q) /\
  isLoading (state (fold_left step es q)) = true /\
  chatSession (state (fold_left step es q)) = chatSession (state q) /\
  outstanding (fold_left step es q) = outstanding q.
Proof.
  revert q; induction es as [|e es IH]; intros q Hl Hes; [now repeat split|].
  cbn [forallb] in Hes. apply andb_true_iff in Hes as [He Hes].
  destruct (waiting_step q e Hl He) as (M & L & C & O).
  destruct (IH (step q e) L Hes) as (M' & L' & C' & O').
  cbn [fold_left]. repeat split; congruence.
Qed.

(** C9, as the code has it, for a turn whose panel stays mounted until the
    call has thrown.  Whatever else the panel is asked to do while the
    reply is awaited, the user's message that was appended stays; when the
    call throws, one model message with the error text is appended after
    it and the loading flag is cleared; the session is kept and no call is
    outstanding, so the next text that is not blank is sent. *)
Theorem C9_chat_failure (p : Instance) (text : str) (session : Chat)
        (meanwhile : list Event) :
  chatSession (state p) = Some session ->
  isLoading (state p) = false ->
  isEmpty (trim text) = false ->
  forallb ChatCalls.notSettled meanwhile = true ->
  let p1 := send p text in
  let waiting := fold_left step meanwhile p1 in
  let p2 := step waiting (Settled Failed) in
  handleSend_begin (state p) text = (state p1, Some (session, text)) /\
  messages (state p1) = messages (state p) ++ [{| role := user; text := text |}] /\
  isLoading (state p1) = true /\
  (messages (state waiting) = messages (state p1) /\
   isLoading (state waiting) = true /\
   enabled waiting (Settled Failed) = true) /\
  messages (state p2)
  = messages (state p)
    ++ [{| role := user; text := text |}; {| role := model; text := errorReply |}] /\
  errorReply <> [] /\
  isLoading (state p2) = false /\
  chatSession (state p2) = Some session /\
  outstanding p2 = outstanding p /\
  forall text', isEmpty (trim text') = false ->
                snd (handleSend_begin (state p2) text') = Some (session, text').
Proof.
  intros Hc Hl Ht Hm. cbn zeta.
  assert (E1 : send p text
               = {| state := {| messages := messages (state p)
                                            ++ [{| role := user; text := text |}];
                                input := []; isLoading := true;
                                chatSession := Some session |};
                    outstanding := outstanding p + 1 |}).
  { unfold send. now rewrite (handleSend_begin_passes _ _ _ Hc Hl Ht). }
  assert (E0 : handleSend_begin (state p) text = (state (send p text), Some (session, text))).
  { rewrite E1. cbn. now apply handleSend_begin_passes. }
  split; [exact E0|]. clear E0.
  rewrite E1. clear E1.
  set (q := {| state := {| messages := messages (state p)
                                       ++ [{| role := user; text := text |}];
                           input := []; isLoading := true;
                           chatSession := Some session |};
               outstanding := outstanding p + 1 |}).
  destruct (waiting_steps meanwhile q eq_refl Hm) as (M & L & C & O).
  change (messages (state q))
    with (messages (state p) ++ [{| role := user; text := text |}]) in *.
  change (chatSession (state q)) with (Some session) in C.
  change (outstanding q) with (outstanding p + 1) in O.
  split; [reflexivity|]. split; [reflexivity|].
  split.
  { split; [exact M|]. split; [exact L|].
    unfold enabled. rewrite O. apply Nat.ltb_lt. lia. }
  cbn [step state handleSend_settle messages isLoading chatSession outstanding reply].
  rewrite M, C, O, <- app_assoc. cbn [app].
  repeat split; try discriminate; try lia.
  intros text' Ht'. unfold handleSend_begin. cbn. rewrite C. cbn.
  rewrite Ht'. reflexivity.
Qed.

Lemma C9_chat_failure_witness :
  let meanwhile := [TypeInput (lit "and"); SendInput; QuickAction (lit "Key Quotes")] in
  let p1 := send Sample.panel (lit "Summarize") in
  let p2 := step (fold_left step meanwhile p1) (Settled Failed) in
  forallb ChatCalls.notSettled meanwhile = true /\
  messages (state p2)
  = messages (state Sample.panel)
    ++ [{| role := user; text := lit "Summarize" |};
        {| role := model; text := errorReply |}] /\
  isLoading (state p2) = false /\
  outstanding p2 = outstanding Sample.panel.
Proof.
  cbn zeta. split; [reflexivity|].
  destruct (C9_chat_failure Sample.panel (lit "Summarize")
              {| context := lit "Speaker 1: hello" |}
              [TypeInput (lit "and"); SendInput; QuickAction (lit "Key Quotes")]
              eq_refl eq_refl eq_refl eq_refl)
    as (_ & _ & _ & _ & H4 & _ & H6 & _ & H8 & _).
  split; [exact H4|]. split; [exact H6|exact H8].
Defined.

(** C7 as it is worded fails on the page.  A quick action is sent; the user
    looks at the transcript and comes back to the assistant while the reply
    is awaited; the quick action is sent again.  Every step is offered by
    the page, two calls of [sendMessage] have been made and none has
    settled, and the second send, made while the first call is outstanding,
    did issue its call. *)
Lemma C7_counterexample :
  let run := [ App.SelectFile Sample.interview;
               App.StartTranscription;
               App.TranscribeSettled (App.Resolved (lit "Speaker 1: hello"));
               App.SelectTab App.assistant;
               App.Assistant (QuickAction (lit "Summarize"));
               App.SelectTab App.transcript;
               App.SelectTab App.assistant ] in
  let again := App.Assistant (QuickAction (lit "Summarize")) in
  let w := App.steps Sample.apiKey Sample.createObjectURL App.start run in
  App.allEnabled Sample.apiKey Sample.createObjectURL App.start (run ++ [again])
  = true /\
  ChatCalls.issued Sample.apiKey Sample.createObjectURL App.start run = 1 /\
  ChatCalls.settled Sample.apiKey Sample.createObjectURL App.start run = 0 /\
  ChatCalls.issues w again = true /\
  ChatCalls.unsettled Sample.apiKey Sample.createObjectURL App.start (run ++ [again])
  = 2.
Proof. cbn zeta. repeat split; vm_compute; reflexivity. Qed.


(** C9 as it is worded fails for a turn whose panel is unmounted while the
    reply is awaited.  After the user has looked at the transcript and come
    back, the panel on the page is a fresh one: it shows the greeting alone
    and awaits nothing, so the failure of the call that is still under way
    is no event of it; the user's message has not stayed and no error
    message is appended. *)
Lemma C9_counterexample :
  let asking := Sample.step Sample.chatting
                  (App.Assistant (QuickAction (lit "Summarize"))) in
  let away := Sample.step asking (App.SelectTab App.transcript) in
  let back := Sample.step away (App.SelectTab App.assistant) in
  option_map (fun p => (messages (state p), isLoading (state p), outstanding p))
             (App.chat asking)
  = Some ([greeting; {| role := user; text := lit "Summarize" |}], true, 1) /\
  App.enabled Sample.apiKey asking (App.SelectTab App.transcript) = true /\
  App.enabled Sample.apiKey away (App.SelectTab App.assistant) = true /\
  App.enabled Sample.apiKey away (App.Assistant (Settled Failed)) = false /\
  option_map (fun p => (messages (state p), isLoading (state p), outstanding p))
             (App.chat back)
  = Some ([greeting], false, 0) /\
  App.enabled Sample.apiKey back (App.Assistant (Settled Failed)) = false.
Proof. cbn zeta. repeat split; vm_compute; reflexivity. Qed.

(* ================================================================== *)
(** ** Further properties: searching and moving between matches *)
(* ================================================================== *)

Lemma matchStarts_length (off : nat) (ps : list Part) :
  length (matchStarts off ps) = length (filter isMatch ps).
Proof.
  revert off; induction ps as [|p ps IH]; intros off; [reflexivity|].
  simpl. destruct (isMatch p); simpl; now rewrite IH.
Qed.

(** A searched line has no marked part exactly when it is blank or the
    query occurs nowhere in it. *)
Lemma paragraph_unmarked (q : str) (n : Z) (line : str) :
  q <> [] ->
  filter isMatch (parts (fst (processParagraph q n line))) = [] <->
  (isEmpty (trim line) = true \/ forall i, occursAt q line i = false).
Proof.
  intros Hq. rewrite processParagraph_parts.
  destruct (isEmpty (trim line)) eqn:Hb.
  - split; [now left|reflexivity].
  - pose proof (splitRegex_leftmost q line n Hq) as L. cbn zeta in L.
    pose proof (matchStarts_length 0 (fst (markParts q n (splitRegex q line)))) as Hl.
    split.
    + intros Hf. right. intros i.
      rewrite Hf in Hl. simpl in Hl. apply length_zero_iff_nil in Hl.
      rewrite Hl in L. destruct (occursAt q line i) eqn:Ho; [|reflexivity].
      exfalso. apply (proj2 (L i)). split; [exact Ho|intros j []].
    + intros [Hc|Hno]; [discriminate|].
      destruct (matchStarts 0 (fst (markParts q n (splitRegex q line))))
        as [|i S] eqn:HS.
      * simpl in Hl. symmetry in Hl. now apply length_zero_iff_nil in Hl.
      * exfalso. destruct (proj1 (L i) (or_introl eq_refl)) as [Ho _].
        rewrite Hno in Ho. discriminate.
Qed.

Lemma unmarked_lines (q : str) (lines : list str) (n : Z) :
  q <> [] ->
  filter isMatch (allParts (fst (processParagraphs q n lines))) = [] <->
  Forall (fun line => isEmpty (trim line) = true \/
                      forall i, occursAt q line i = false) lines.
Proof.
  intros Hq. revert n; induction lines as [|line lines IH]; intros n.
  - simpl. split; [constructor|reflexivity].
  - rewrite processParagraphs_cons. unfold allParts in *. cbn [fst flat_map].
    rewrite filter_app. split.
    + intros H. apply app_eq_nil in H as [H1 H2]. constructor.
      * now apply (paragraph_unmarked q n line Hq).
      * now apply (IH (snd (processParagraph q n line))).
    + intros H. inversion H as [|? ? H1 H2]; subst.
      apply (paragraph_unmarked q n line Hq) in H1. rewrite H1.
      now apply IH.
Qed.

Lemma search_empty_query_unmarked (text : str) :
  filter isMatch (allParts (processedParagraphs text [])) = [].
Proof.
  unfold processedParagraphs, search, allParts. cbn [isEmpty fst].
  induction (splitLines text) as [|l ls IH]; [reflexivity|exact IH].
Qed.

(** For every query, the empty one included: [totalMatches] counts the
    marked parts, whose indices are 0, 1, 2, ... in order. *)
Lemma totalMatches_count (text q : str) :
  let ps := allParts (processedParagraphs text q) in
  totalMatches text q = Z.of_nat (length (filter isMatch ps)) /\
  matchIndices ps = map Z.of_nat (seq 0 (length (filter isMatch ps))).
Proof.
  cbn zeta. destruct q as [|c q].
  - unfold matchIndices. rewrite search_empty_query_unmarked. now split.
  - unfold processedParagraphs, totalMatches, search. cbn [isEmpty].
    destruct (processParagraphs_count (c :: q) (splitLines text) 0) as [H1 H2].
    cbn zeta in H1, H2. rewrite H1, H2. split; [lia|].
    apply map_ext. intros; lia.
Qed.

(** X1. For a transcript and a query whose code units lie below 256, the
    counter shows no match exactly when the query is empty or occurs in no
    line that is not blank. *)
Theorem zero_matches_iff_no_occurrence (text searchQuery : str) :
  totalMatches text searchQuery = 0%Z <->
  (searchQuery = [] \/
   Forall (fun line => isEmpty (trim line) = true \/
                       forall i, occursAt searchQuery line i = false)
          (splitLines text)).
Proof.
  destruct (totalMatches_count text searchQuery) as [Ht _]. rewrite Ht.
  destruct searchQuery as [|c q].
  - rewrite search_empty_query_unmarked. split; [now left|reflexivity].
  - unfold processedParagraphs, search. cbn [isEmpty].
    rewrite <- (unmarked_lines (c :: q) (splitLines text) 0) by discriminate.
    split.
    + intros H. right. apply length_zero_iff_nil. lia.
    + intros [H|H]; [discriminate|]. now rewrite H.
Qed.

Lemma count_in_range (i : Z) (k : nat) :
  length (filter (Z.eqb i) (map Z.of_nat (seq 0 k)))
  = if ((0 <=? i) && (i <? Z.of_nat k))%Z then 1 else 0.
Proof.
  induction k as [|k IH].
  { cbn. destruct (Z.leb_spec 0 i), (Z.ltb_spec i 0); cbn; lia. }
  rewrite seq_S, map_app, filter_app, length_app, IH. cbn [Nat.add map filter].
  destruct (Z.eqb_spec i (Z.of_nat k)) as [->|Hne]; cbn [length].
  - replace (0 <=? Z.of_nat k)%Z with true by (symmetry; apply Z.leb_le; lia).
    replace (Z.of_nat k <? Z.of_nat k)%Z with false by (symmetry; apply Z.ltb_ge; lia).
    replace (Z.of_nat k <? Z.of_nat (S k))%Z with true by (symmetry; apply Z.ltb_lt; lia).
    reflexivity.
  - destruct (0 <=? i)%Z; [|reflexivity]. cbn [andb].
    destruct (Z.ltb_spec i (Z.of_nat k)), (Z.ltb_spec i (Z.of_nat (S k))); cbn; lia.
Qed.

Lemma count_current (i : Z) (ps : list Part) :
  length (filter (fun p => isMatch p && (i =? index p)%Z) ps)
  = length (filter (Z.eqb i) (matchIndices ps)).
Proof.
  unfold matchIndices. induction ps as [|p ps IH]; [reflexivity|].
  simpl. destruct (isMatch p); simpl; [|exact IH].
  destruct (i =? index p)%Z; simpl; now rewrite IH.
Qed.

Lemma totalMatches_nonneg (text q : str) : (0 <= totalMatches text q)%Z.
Proof. destruct (totalMatches_count text q) as [H _]. rewrite H. lia. Qed.

(** The index of the current match stays below the number of matches, and
    is 0 when there is none. *)
Lemma searchBar_index (text : str) (s : SearchBar.State) :
  SearchBar.reachable text s ->
  let n := totalMatches text (SearchBar.searchQuery s) in
  (n = 0 /\ SearchBar.currentMatchIndex s = 0)%Z \/
  (0 <= SearchBar.currentMatchIndex s < n)%Z.
Proof.
  induction 1 as [|s e _ IH He]; cbn zeta in *.
  - left. split; reflexivity.
  - assert (Hset : forall v,
              let s' := SearchBar.setSearchQuery s v in
              (totalMatches text (SearchBar.searchQuery s') = 0
               /\ SearchBar.currentMatchIndex s' = 0)%Z \/
              (0 <= SearchBar.currentMatchIndex s'
               < totalMatches text (SearchBar.searchQuery s'))%Z).
    { intros v. cbn zeta. unfold SearchBar.setSearchQuery.
      destruct (strEq v (SearchBar.searchQuery s)); [exact IH|].
      cbn. pose proof (totalMatches_nonneg text v). lia. }
    destruct e as [v| | |]; cbn [SearchBar.step].
    + apply Hset.
    + cbn in He. apply andb_true_iff in He as [_ He].
      apply negb_true_iff, Z.eqb_neq in He.
      destruct IH as [[H0 _]|IH]; [congruence|]. right. cbn.
      unfold handleNextMatch. apply Z.rem_bound_pos; lia.
    + cbn in He. apply andb_true_iff in He as [_ He].
      apply negb_true_iff, Z.eqb_neq in He.
      destruct IH as [[H0 _]|IH]; [congruence|]. right. cbn.
      unfold handlePrevMatch. apply Z.rem_bound_pos; lia.
    + apply Hset.
Qed.

(** X2. In every state the search bar can reach, the query and the index
    fit together: with no match the index is 0 and no part is drawn as the
    current match; with matches the index lies in [0, totalMatches), so
    the counter shows a position between 1 and totalMatches, and exactly
    one part is drawn as the current match. *)
Theorem searchBar_current_match (text : str) (s : SearchBar.State) :
  SearchBar.reachable text s ->
  let n := totalMatches text (SearchBar.searchQuery s) in
  (0 <= n)%Z /\
  (n = 0%Z ->
   SearchBar.currentMatchIndex s = 0%Z /\ SearchBar.currentParts text s = []) /\
  ((0 < n)%Z ->
   (0 <= SearchBar.currentMatchIndex s < n)%Z /\
   length (SearchBar.currentParts text s) = 1).
Proof.
  intros Hs. cbn zeta.
  pose proof (searchBar_index text s Hs) as Hi. cbn zeta in Hi.
  destruct (totalMatches_count text (SearchBar.searchQuery s)) as [Ht Hidx].
  assert (Hc : length (SearchBar.currentParts text s)
               = if ((0 <=? SearchBar.currentMatchIndex s)
                     && (SearchBar.currentMatchIndex s
                         <? totalMatches text (SearchBar.searchQuery s)))%Z
                 then 1 else 0).
  { unfold SearchBar.currentParts, SearchBar.isCurrent.
    rewrite count_current, Hidx, count_in_range, <- Ht. reflexivity. }
  split; [apply totalMatches_nonneg|]. split.
  - intros Hn. destruct Hi as [[_ H0]|Hr]; [|lia]. split; [exact H0|].
    apply length_zero_iff_nil. rewrite Hc, H0, Hn. reflexivity.
  - intros Hn. destruct Hi as [[H0 _]|Hr]; [lia|]. split; [exact Hr|].
    rewrite Hc.
    replace (0 <=? SearchBar.currentMatchIndex s)%Z with true
      by (symmetry; apply Z.leb_le; lia).
    replace (SearchBar.currentMatchIndex s
             <? totalMatches text (SearchBar.searchQuery s))%Z with true
      by (symmetry; apply Z.ltb_lt; lia).
    reflexivity.
Qed.

Lemma searchBar_current_match_witness :
  let text := lit "Aa aA aaa" in
  let s := SearchBar.step text
             (SearchBar.step text SearchBar.initial (SearchBar.TypeQuery (lit "aa")))
             SearchBar.PrevMatch in
  totalMatches text (SearchBar.searchQuery s) = 3%Z /\
  SearchBar.currentMatchIndex s = 2%Z /\
  length (SearchBar.currentParts text s) = 1.
Proof.
  cbn zeta. split; [reflexivity|]. split; [reflexivity|].
  apply (searchBar_current_match (lit "Aa aA aaa")).
  - apply SearchBar.reach_next; [|reflexivity].
    apply SearchBar.reach_next; [apply SearchBar.reach_initial|reflexivity].
  - reflexivity.
Defined.

(** X3. With n > 0 matches and the index at i, pressing next k times leads
    to (i + k) mod n and pressing previous k times to (i - k) mod n: next
    walks through all matches in order, and n presses of either button
    lead back to where they began. *)
Theorem navigation_walks_the_cycle (n i : Z) (k : nat) :
  (0 < n)%Z -> (0 <= i < n)%Z ->
  Nat.iter k (handleNextMatch n) i = ((i + Z.of_nat k) mod n)%Z /\
  Nat.iter k (handlePrevMatch n) i = ((i - Z.of_nat k) mod n)%Z /\
  Nat.iter (Z.to_nat n) (handleNextMatch n) i = i /\
  Nat.iter (Z.to_nat n) (handlePrevMatch n) i = i.
Proof.
  intros Hn Hi.
  assert (Hnext : forall m, Nat.iter m (handleNextMatch n) i
                            = ((i + Z.of_nat m) mod n)%Z).
  { induction m as [|m IH].
    - simpl. rewrite Z.add_0_r. symmetry. apply Z.mod_small; lia.
    - cbn [Nat.iter nat_rect]. change (nat_rect _ i _ m) with
        (Nat.iter m (handleNextMatch n) i). rewrite IH.
      unfold handleNextMatch.
      pose proof (Z.mod_pos_bound (i + Z.of_nat m) n Hn).
      rewrite Z.rem_mod_nonneg by lia.
      rewrite Zplus_mod_idemp_l. f_equal. lia. }
  assert (Hprev : forall m, Nat.iter m (handlePrevMatch n) i
                            = ((i - Z.of_nat m) mod n)%Z).
  { induction m as [|m IH].
    - simpl. rewrite Z.sub_0_r. symmetry. apply Z.mod_small; lia.
    - cbn [Nat.iter nat_rect]. change (nat_rect _ i _ m) with
        (Nat.iter m (handlePrevMatch n) i). rewrite IH.
      unfold handlePrevMatch.
      pose proof (Z.mod_pos_bound (i - Z.of_nat m) n Hn).
      rewrite Z.rem_mod_nonneg by lia.
      replace ((i - Z.of_nat m) mod n - 1 + n)%Z
        with ((i - Z.of_nat m) mod n + (n - 1))%Z by lia.
      rewrite Zplus_mod_idemp_l.
      replace (i - Z.of_nat m + (n - 1))%Z
        with (i - Z.of_nat (S m) + 1 * n)%Z by lia.
      apply Z_mod_plus_full. }
  repeat split; [apply Hnext|apply Hprev| |].
  - rewrite Hnext, Z2Nat.id by lia.
    replace (i + n)%Z with (i + 1 * n)%Z by lia.
    rewrite Z_mod_plus_full. apply Z.mod_small; lia.
  - rewrite Hprev, Z2Nat.id by lia.
    replace (i - n)%Z with (i + (-1) * n)%Z by lia.
    rewrite Z_mod_plus_full. apply Z.mod_small; lia.
Qed.

Lemma navigation_walks_the_cycle_witness :
  (0 < 4)%Z /\ (0 <= 1 < 4)%Z /\
  Nat.iter 6 (handleNextMatch 4) 1%Z = ((1 + Z.of_nat 6) mod 4)%Z /\
  Nat.iter 6 (handlePrevMatch 4) 1%Z = ((1 - Z.of_nat 6) mod 4)%Z /\
  Nat.iter (Z.to_nat 4) (handleNextMatch 4) 1%Z = 1%Z /\
  Nat.iter (Z.to_nat 4) (handlePrevMatch 4) 1%Z = 1%Z.
Proof.
  split; [lia|]. split; [lia|].
  apply (navigation_walks_the_cycle 4 1 6); lia.
Defined.

Lemma matchesAt_app (pat a b : str) :
  matchesAt pat a = true -> matchesAt pat (a ++ b) = true.
Proof.
  revert a; induction pat as [|p pat IH]; intros [|c a] H; simpl in *;
    try reflexivity; try discriminate.
  apply andb_true_iff in H as [H1 H2]. rewrite H1. now apply IH.
Qed.

Lemma markParts_isMatch (q : str) (pieces : list str) (n : Z) :
  Forall (fun p => isMatch p
                   = strEq (toLowerCase (TranscriptionDisplay.text p)) (toLowerCase q))
         (fst (markParts q n pieces)).
Proof.
  revert n; induction pieces as [|part pieces IH]; intros n; [constructor|].
  destruct (strEq (toLowerCase part) (toLowerCase q)) eqn:E.
  - rewrite markParts_hit by exact E. constructor; [now cbn|apply IH].
  - rewrite markParts_miss by exact E. constructor; [now cbn|apply IH].
Qed.

(** Every piece of the split is the captured match or contains no
    occurrence of the pattern. *)
Lemma splitLoop_plain (pat : str) (fuel : nat) :
  pat <> [] ->
  forall piece rest : str,
    length rest < fuel ->
    (forall j, j < length piece -> matchesAt pat (skipn j (piece ++ rest)) = false) ->
    Forall (fun part =>
              strEq (toLowerCase part) (toLowerCase pat) = true \/
              forall i, matchesAt pat (skipn i part) = false)
           (splitLoop fuel pat piece rest).
Proof.
  intros Hpat. induction fuel as [|fuel IH]; intros piece rest Hfuel Inv; [lia|].
  assert (Hplain : forall i, matchesAt pat (skipn i piece) = false).
  { intros i. destruct (Nat.lt_ge_cases i (length piece)) as [Hlt|Hge].
    - specialize (Inv i Hlt). rewrite skipn_app in Inv.
      replace (i - length piece) with 0 in Inv by lia. cbn [skipn] in Inv.
      destruct (matchesAt pat (skipn i piece)) eqn:E; [|reflexivity].
      now rewrite (matchesAt_app _ _ rest E) in Inv.
    - rewrite skipn_all2 by lia. now apply matchesAt_nil. }
  cbn [splitLoop]. destruct rest as [|c rest'].
  - constructor; [now right|constructor].
  - rewrite (isEmpty_false pat Hpat). cbn [andb negb]. rewrite andb_true_r.
    destruct (matchesAt pat (c :: rest')) eqn:Hm.
    + pose proof (matchesAt_length _ _ Hm) as Hml.
      constructor; [now right|]. constructor.
      * left. now rewrite <- matchesAt_lower.
      * apply IH.
        -- rewrite length_skipn. cbn [length] in *.
           destruct pat; [congruence|cbn [length]; lia].
        -- simpl; intros; lia.
    + apply IH.
      * simpl in Hfuel. lia.
      * intros j Hj. rewrite <- app_assoc. cbn [app].
        rewrite length_app in Hj. simpl in Hj.
        destruct (Nat.eq_dec j (length piece)) as [->|Hne].
        -- rewrite skipn_app, skipn_all, Nat.sub_diag. exact Hm.
        -- apply Inv. lia.
Qed.

(** X4. No plain part hides a match: for a transcript and a query whose
    code units lie below 256, the query not empty, in every paragraph that
    is not blank the query occurs nowhere inside a part that is left
    unmarked. *)
Theorem unmarked_parts_hold_no_match (text searchQuery : str) :
  searchQuery <> [] ->
  Forall (fun p =>
            isEmpty (trim (ptext p)) = false ->
            Forall (fun part =>
                      isMatch part = false ->
                      forall i, occursAt searchQuery
                                         (TranscriptionDisplay.text part) i = false)
                   (parts p))
         (processedParagraphs text searchQuery).
Proof.
  intros Hq. unfold processedParagraphs, search. rewrite (isEmpty_false _ Hq).
  apply processParagraphs_each. intros m line.
  rewrite processParagraph_ptext, processParagraph_parts. intros Hb. rewrite Hb.
  pose proof (markParts_isMatch searchQuery (splitRegex searchQuery line) m) as HM.
  assert (HP : Forall (fun part =>
                         strEq (toLowerCase part) (toLowerCase searchQuery) = true \/
                         forall i, matchesAt searchQuery (skipn i part) = false)
                      (splitRegex searchQuery line)).
  { destruct line as [|c l]; [discriminate|]. unfold splitRegex.
    apply (splitLoop_plain searchQuery _ Hq [] (c :: l)).
    - lia.
    - simpl; intros; lia. }
  rewrite <- (markParts_text searchQuery (splitRegex searchQuery line) m) in HP.
  rewrite Forall_map in HP.
  rewrite Forall_forall in *. intros part Hin Hun i.
  rewrite occursAt_matchesAt.
  destruct (HP part Hin) as [Hhit|Hno]; [|apply Hno].
  rewrite (HM part Hin) in Hun. congruence.
Qed.

Lemma unmarked_parts_hold_no_match_witness :
  lit "aa" <> [] /\
  Forall (fun p =>
            isEmpty (trim (ptext p)) = false ->
            Forall (fun part =>
                      isMatch part = false ->
                      forall i, occursAt (lit "aa")
                                         (TranscriptionDisplay.text part) i = false)
                   (parts p))
         (processedParagraphs (lit "Aa aA aaa") (lit "aa")).
Proof.
  split; [discriminate|].
  apply (unmarked_parts_hold_no_match (lit "Aa aA aaa") (lit "aa")).
  discriminate.
Defined.

(* ================================================================== *)
(** ** Further properties: the transcription service and the uploader *)
(* ================================================================== *)

(** X5. [transcribeMedia] resolves only with a text that is not empty, and
    only when a key is configured, the file could be read and the model
    returned that text after one call; every rejection carries a message
    that is not empty; without a key it rejects with the notice of the
    missing key before the model is called; the model is called at most
    once.  So every outcome is one the page is prepared for. *)
Theorem transcribeMedia_outcomes (apiKey : str) (r : GeminiService.Remote) :
  let o := fst (GeminiService.transcribeMedia apiKey r) in
  let calls := snd (GeminiService.transcribeMedia apiKey r) in
  match o with
  | App.Resolved t =>
      t <> [] /\ apiKey <> [] /\
      (exists part, GeminiService.mediaPart r = GeminiService.Returned part) /\
      GeminiService.response r = GeminiService.Returned (Some t) /\
      calls = 1
  | App.Rejected message => exists msg, message = Some msg /\ msg <> []
  end /\
  (apiKey = [] ->
   o = App.Rejected (Some GeminiService.missingKeyMessage) /\ calls = 0) /\
  calls <= 1 /\
  App.transcribeMediaSettles apiKey o = true.
Proof.
  cbn zeta. unfold GeminiService.transcribeMedia.
  destruct apiKey as [|k key]; cbn [isEmpty].
  - cbn. repeat split; try lia. eexists; split; [reflexivity|discriminate].
  - destruct r as [[part|[[|c m]|]] [[[|d t]|]|[[|e m2]|]]];
      cbn; repeat split; try discriminate; try lia;
      try (eexists; split; [reflexivity|discriminate]);
      try (now exists part).
Qed.

(* ================================================================== *)
(** ** Further properties: the page *)
(* ================================================================== *)

Lemma step_chatSession (p : Instance) (e : Event) :
  chatSession (state (step p e)) = chatSession (state p).
Proof.
  assert (Hsend : forall text, chatSession (state (send p text)) = chatSession (state p)).
  { intros text. unfold send.
    destruct (handleSend_begin_cases (state p) text) as [E|(session & Hc & Hl & Ht)].
    - now rewrite E.
    - rewrite (handleSend_begin_passes _ _ _ Hc Hl Ht). cbn. now rewrite Hc. }
  destruct e; cbn [step]; try apply Hsend; reflexivity.
Qed.

Lemma mount_chatSession (apiKey transcription : str) :
  transcription <> [] ->
  chatSession (state (mount apiKey transcription))
  = createChatSession apiKey transcription.
Proof.
  intros H. unfold mount, initChat. cbn [state].
  rewrite (isEmpty_false _ H).
  now destruct (createChatSession apiKey transcription).
Qed.

Section Settled.

Variable apiKey : str.
Variable createObjectURL : DOM.File -> str.

Lemma settled_start : Page.settled apiKey App.start.
Proof.
  unfold Page.settled. cbn. repeat split; try discriminate; try congruence.
Qed.

Lemma settled_step (w : App.World) (e : App.Event) :
  App.consistent w ->
  Page.settled apiKey w ->
  App.enabled apiKey w e = true ->
  Page.settled apiKey (App.step apiKey createObjectURL w e).
Proof.
  destruct w as [[mf st tr er el tab] ue pend ch].
  unfold App.consistent, Page.settled. cbn zeta.
  intros (Cp & Cm & Ct) (S1 & S2 & S3 & S4 & S5 & S6 & S7 & S8) He.
  cbn in Cp, Cm, Ct, S1, S2, S3, S4, S5, S6, S7, S8.
  destruct e as [f| |o| |t| |e].
  - (* SelectFile *)
    cbn in He. destruct mf; [discriminate|]. specialize (Cm eq_refl). subst st.
    rewrite S3 in * by discriminate. rewrite S4 in * by reflexivity.
    cbn [App.step].
    destruct (MediaUploader.validateAndProcessFile createObjectURL f) as [err [m|]].
    + cbn. repeat split; try discriminate; try congruence.
    + cbn. repeat split; try discriminate; try congruence; try assumption;
        try apply S7.
  - (* StartTranscription *)
    cbn in He. destruct mf as [m|]; [|discriminate].
    assert (Htr : tr = []) by (apply Ct; destruct st; discriminate).
    subst tr.
    assert (Htab : tab = App.transcript)
      by (destruct tab; [reflexivity|exfalso; now apply S6]).
    subst tab.
    destruct st; try discriminate; cbn; repeat split;
      try discriminate; try congruence.
  - (* TranscribeSettled *)
    cbn in He. apply andb_true_iff in He as [He Ho].
    assert (Hst : st = TRANSCRIBING)
      by (destruct st; cbn in Cp; subst pend; try discriminate; reflexivity).
    subst st. rewrite Ct in * by discriminate.
    assert (Htab : tab = App.transcript)
      by (destruct tab; [reflexivity|exfalso; now apply S6]).
    subst tab. rewrite S3 in * by discriminate.
    destruct mf as [m|]; [|specialize (Cm eq_refl); discriminate].
    destruct o as [r|[msg|]]; cbn in Ho; try discriminate.
    + apply andb_true_iff in Ho as [_ Hr]. apply negb_true_iff in Hr.
      destruct r as [|c r]; [discriminate|].
      cbn. repeat split; try discriminate; try congruence.
    + apply negb_true_iff in Ho. destruct msg as [|c msg]; [discriminate|].
      cbn. repeat split; try discriminate; try congruence.
      intros _. eexists. split; [reflexivity|discriminate].
  - (* Reset *)
    cbn [App.step]. unfold App.update. cbn [App.app App.uploadError App.pending App.chat].
    destruct st; cbn; repeat split; try discriminate; try congruence;
      try (apply S4; reflexivity).
  - (* SelectTab *)
    cbn in He.
    assert (Hrun : App.run [App.setActiveTab t]
                     {| App.mediaFile := mf; App.status := st; App.transcription := tr;
                        App.error := er; App.elapsedTime := el; App.activeTab := tab |}
                   = {| App.mediaFile := mf; App.status := st; App.transcription := tr;
                        App.error := er; App.elapsedTime := el; App.activeTab := t |})
      by reflexivity.
    cbn [App.step]. unfold App.update. cbn [App.app App.uploadError App.pending App.chat].
    rewrite Hrun.
    assert (Hse : forall s1 s2, App.status s1 = App.status s2 ->
                                App.statusEffect s1 s2 = s2).
    { intros s1 s2 E. unfold App.statusEffect. rewrite E. now destruct (App.status s2). }
    rewrite Hse by reflexivity. cbn [App.status App.error App.elapsedTime
      App.transcription App.activeTab App.chat App.app].
    unfold App.renderChat. cbn [App.transcription]. rewrite strEq_refl.
    repeat split; try assumption.
    + intros Ht. subst t. destruct mf; [|discriminate].
      cbn in He. apply negb_true_iff in He. intros ->. discriminate.
    + destruct mf as [m|], t; cbn; intros H; try reflexivity; destruct ch; discriminate.
    + destruct mf as [m|], t; cbn; intros H; try reflexivity; discriminate.
    + intros p. destruct mf as [m|], t; cbn; try discriminate.
      cbn in He. apply negb_true_iff in He.
      destruct ch as [q|]; intros H; inversion H; subst.
      * now apply S8.
      * apply mount_chatSession. destruct tr; discriminate.
  - (* Tick *)
    cbn in He. cbn. repeat split; try assumption; try apply S7.
    intros H. rewrite H in He. discriminate.
  - (* Assistant *)
    cbn in He. destruct ch as [q|]; [|discriminate].
    cbn. repeat split; try assumption.
    + intros H. discriminate.
    + intros H. apply S7 in H. discriminate.
    + intros p H. inversion H; subst. rewrite step_chatSession. now apply S8.
Qed.

Lemma reachable_settled (w : App.World) :
  App.reachable apiKey createObjectURL w -> Page.settled apiKey w.
Proof.
  induction 1 as [|w e Hw IH He]; [apply settled_start|].
  apply settled_step; [|exact IH|exact He].
  now apply (reachable_consistent apiKey createObjectURL).
Qed.

End Settled.

Ltac sample_reachable :=
  repeat (apply App.reach_step; [|reflexivity]); apply App.reach_start.

(** X6. On every page that can be reached the status is never left at
    PROCESSING_FILE, at most one call of [transcribeMedia] is outstanding,
    and one is outstanding exactly in the TRANSCRIBING state; with no media
    file loaded the page is idle, without transcript and without call. *)
Theorem one_transcription_at_a_time (apiKey : str) (createObjectURL : DOM.File -> str)
        (w : App.World) :
  App.reachable apiKey createObjectURL w ->
  App.status (App.app w) <> PROCESSING_FILE /\
  App.pending w <= 1 /\
  (App.pending w = 1 <-> App.status (App.app w) = TRANSCRIBING) /\
  (App.mediaFile (App.app w) = None ->
   App.status (App.app w) = IDLE /\ App.transcription (App.app w) = [] /\
   App.pending w = 0).
Proof.
  intros Hw.
  destruct (reachable_consistent apiKey createObjectURL w Hw) as (Cp & Cm & Ct).
  destruct (reachable_settled apiKey createObjectURL w Hw) as (S1 & _).
  destruct w as [[mf st tr er el tab] ue pend ch]. cbn in *.
  split; [exact S1|]. rewrite Cp.
  destruct st; cbn; (split; [lia|]);
    (split; [split; intros; try lia; try discriminate; reflexivity|]);
    intros ->; specialize (Cm eq_refl); try discriminate;
    (repeat split; try reflexivity; apply Ct; discriminate).
Qed.

Lemma one_transcription_at_a_time_witness :
  App.status (App.app Scenario.retried) <> PROCESSING_FILE /\
  App.pending Scenario.retried <= 1 /\
  (App.pending Scenario.retried = 1 <->
   App.status (App.app Scenario.retried) = TRANSCRIBING) /\
  (App.mediaFile (App.app Scenario.retried) = None ->
   App.status (App.app Scenario.retried) = IDLE /\
   App.transcription (App.app Scenario.retried) = [] /\
   App.pending Scenario.retried = 0).
Proof.
  apply (one_transcription_at_a_time Sample.apiKey Sample.createObjectURL).
  sample_reachable.
Defined.

(** X7. On every page that can be reached an error message is stored
    exactly in the ERROR state, it is never empty, and the error banner is
    shown exactly in that state. *)
Theorem error_belongs_to_error_state (apiKey : str) (createObjectURL : DOM.File -> str)
        (w : App.World) :
  App.reachable apiKey createObjectURL w ->
  (App.status (App.app w) = ERROR <-> App.error (App.app w) <> None) /\
  (App.errorShown (App.app w) = true <-> App.status (App.app w) = ERROR) /\
  App.error (App.app w) <> Some [].
Proof.
  intros Hw.
  destruct (reachable_consistent apiKey createObjectURL w Hw) as (_ & Cm & _).
  destruct (reachable_settled apiKey createObjectURL w Hw) as (_ & S2 & S3 & _).
  destruct w as [[mf st tr er el tab] ue pend ch]. cbn in *.
  unfold App.errorShown, App.hasMedia. cbn.
  assert (D : st = ERROR \/ st <> ERROR) by (destruct st; auto; right; discriminate).
  destruct D as [E|E].
  - destruct (S2 E) as (msg & -> & Hmsg). subst st.
    destruct mf as [m|]; [|specialize (Cm eq_refl); discriminate].
    destruct msg; [congruence|]. cbn. repeat split; congruence.
  - rewrite (S3 E). repeat split; try congruence; try discriminate.
    rewrite andb_false_r. discriminate.
Qed.

Lemma error_belongs_to_error_state_witness :
  (App.status (App.app Scenario.failed) = ERROR <->
   App.error (App.app Scenario.failed) <> None) /\
  (App.errorShown (App.app Scenario.failed) = true <->
   App.status (App.app Scenario.failed) = ERROR) /\
  App.error (App.app Scenario.failed) <> Some [].
Proof.
  apply (error_belongs_to_error_state Sample.apiKey Sample.createObjectURL).
  sample_reachable.
Defined.

(** X8. On every page that can be reached the elapsed time is zero
    whenever the timer does not run, so each transcription, a retry
    included, starts counting at zero; a tick adds one second. *)
Theorem elapsed_time_counts_one_attempt (apiKey : str)
        (createObjectURL : DOM.File -> str) (w : App.World) :
  App.reachable apiKey createObjectURL w ->
  (App.timerRuns (App.status (App.app w)) = false ->
   App.elapsedTime (App.app w) = 0) /\
  (App.enabled apiKey w App.StartTranscription = true ->
   App.elapsedTime (App.app (App.step apiKey createObjectURL w App.StartTranscription))
   = 0) /\
  (App.enabled apiKey w App.Tick = true ->
   App.elapsedTime (App.app (App.step apiKey createObjectURL w App.Tick))
   = App.elapsedTime (App.app w) + 1 /\
   App.status (App.app (App.step apiKey createObjectURL w App.Tick))
   = App.status (App.app w)).
Proof.
  intros Hw.
  destruct (reachable_settled apiKey createObjectURL w Hw) as (_ & _ & _ & S4 & _).
  destruct w as [[mf st tr er el tab] ue pend ch]. cbn in *.
  split; [exact S4|]. split.
  - intros He. destruct mf as [m|]; [|discriminate].
    destruct st; try discriminate; cbn; now apply S4.
  - intros _. split; reflexivity.
Qed.

Lemma elapsed_time_counts_one_attempt_witness :
  App.elapsedTime (App.app Scenario.failed) = 0 /\
  App.elapsedTime (App.app Scenario.retried) = 0 /\
  App.elapsedTime (App.app Scenario.ticking) = 2.
Proof.
  split; [|split].
  - apply (elapsed_time_counts_one_attempt Sample.apiKey Sample.createObjectURL
             Scenario.failed); [sample_reachable|reflexivity].
  - apply (elapsed_time_counts_one_attempt Sample.apiKey Sample.createObjectURL
             Scenario.failed); [sample_reachable|reflexivity].
  - pose proof (elapsed_time_counts_one_attempt Sample.apiKey Sample.createObjectURL
                  (Sample.step Scenario.retried App.Tick)) as H.
    destruct H as (_ & _ & H); [sample_reachable|].
    destruct (H eq_refl) as [H1 _]. exact H1.
Defined.

(** X9. On every page that can be reached there is a transcript exactly in
    the COMPLETED state, and the assistant tab can be opened exactly
    there. *)
Theorem transcript_belongs_to_completed (apiKey : str)
        (createObjectURL : DOM.File -> str) (w : App.World) :
  App.reachable apiKey createObjectURL w ->
  (App.transcription (App.app w) <> [] <-> App.status (App.app w) = COMPLETED) /\
  (App.assistantTabEnabled (App.app w) = true <-> App.status (App.app w) = COMPLETED) /\
  (App.displayShown (App.app w) = true ->
   App.status (App.app w) = COMPLETED).
Proof.
  intros Hw.
  destruct (reachable_consistent apiKey createObjectURL w Hw) as (_ & Cm & Ct).
  destruct (reachable_settled apiKey createObjectURL w Hw)
    as (_ & _ & _ & _ & S5 & _).
  destruct w as [[mf st tr er el tab] ue pend ch]. cbn in *.
  unfold App.assistantTabEnabled, App.displayShown, App.hasMedia. cbn.
  assert (D : st = COMPLETED \/ st <> COMPLETED)
    by (destruct st; auto; right; discriminate).
  destruct D as [E|E].
  - specialize (S5 E). subst st.
    destruct mf as [m|]; [|specialize (Cm eq_refl); discriminate].
    destruct tr; [congruence|]. cbn. repeat split; congruence.
  - rewrite (Ct E). cbn. rewrite !andb_false_r.
    repeat split; try congruence; try discriminate.
Qed.

Lemma transcript_belongs_to_completed_witness :
  (App.transcription (App.app Sample.completed) <> [] <->
   App.status (App.app Sample.completed) = COMPLETED) /\
  (App.assistantTabEnabled (App.app Sample.completed) = true <->
   App.status (App.app Sample.completed) = COMPLETED) /\
  (App.displayShown (App.app Sample.completed) = true ->
   App.status (App.app Sample.completed) = COMPLETED).
Proof.
  apply (transcript_belongs_to_completed Sample.apiKey Sample.createObjectURL).
  sample_reachable.
Defined.

(** X10. On every page that can be reached the assistant panel exists
    exactly when the assistant tab of a loaded file is shown; then the
    status is COMPLETED, and the chat session of the panel, if it could be
    created, carries exactly the transcript on the page. *)
Theorem assistant_is_grounded_on_the_transcript (apiKey : str)
        (createObjectURL : DOM.File -> str) (w : App.World) :
  App.reachable apiKey createObjectURL w ->
  (App.chat w = None <-> App.assistantShown (App.app w) = false) /\
  (forall p, App.chat w = Some p ->
     App.status (App.app w) = COMPLETED /\
     App.transcription (App.app w) <> [] /\
     (apiKey = [] -> chatSession (state p) = None) /\
     (apiKey <> [] ->
      chatSession (state p) = Some {| context := App.transcription (App.app w) |})).
Proof.
  intros Hw.
  destruct (reachable_consistent apiKey createObjectURL w Hw) as (_ & _ & Ct).
  destruct (reachable_settled apiKey createObjectURL w Hw)
    as (_ & _ & _ & _ & _ & S6 & S7 & S8).
  split; [exact S7|]. intros p Hp. specialize (S8 p Hp).
  assert (Hshown : App.assistantShown (App.app w) = true).
  { destruct (App.assistantShown (App.app w)) eqn:E; [reflexivity|].
    rewrite (proj2 S7 eq_refl) in Hp. discriminate. }
  assert (Htab : App.activeTab (App.app w) = App.assistant).
  { unfold App.assistantShown, App.tabIs in Hshown.
    apply andb_true_iff in Hshown as [_ H].
    destruct (App.activeTab (App.app w)); [discriminate|reflexivity]. }
  specialize (S6 Htab).
  assert (Hst : App.status (App.app w) = COMPLETED).
  { destruct (App.status (App.app w)) eqn:E; try reflexivity;
      exfalso; apply S6, Ct; discriminate. }
  repeat split; try assumption.
  - intros ->. rewrite S8. reflexivity.
  - intros Hk. rewrite S8. unfold createChatSession.
    now rewrite (isEmpty_false _ Hk).
Qed.

Lemma assistant_is_grounded_on_the_transcript_witness :
  App.chat Sample.chatting = Some Sample.panel /\
  App.status (App.app Sample.chatting) = COMPLETED /\
  App.transcription (App.app Sample.chatting) <> [] /\
  (Sample.apiKey <> [] ->
   chatSession (state Sample.panel)
   = Some {| context := App.transcription (App.app Sample.chatting) |}).
Proof.
  split; [reflexivity|].
  pose proof (assistant_is_grounded_on_the_transcript
                Sample.apiKey Sample.createObjectURL Sample.chatting) as H.
  destruct H as [_ H]; [sample_reachable|].
  destruct (H Sample.panel eq_refl) as (H1 & H2 & _ & H4).
  split; [exact H1|]. split; [exact H2|exact H4].
Defined.

(** X11. While a transcription is outstanding the page offers no reset, no
    file selection, no second start and no assistant; the transcript view
    with its New button is not shown either.  So a call that is under way
    is never left behind. *)
Theorem nothing_but_waiting_while_transcribing (apiKey : str)
        (createObjectURL : DOM.File -> str) (w : App.World) :
  App.reachable apiKey createObjectURL w ->
  App.status (App.app w) = TRANSCRIBING ->
  App.enabled apiKey w App.Reset = false /\
  App.enabled apiKey w App.StartTranscription = false /\
  App.enabled apiKey w (App.SelectTab App.assistant) = false /\
  (forall f, App.enabled apiKey w (App.SelectFile f) = false) /\
  (forall e, App.enabled apiKey w (App.Assistant e) = false) /\
  App.displayShown (App.app w) = false /\
  App.pending w = 1.
Proof.
  intros Hw Hst.
  destruct (reachable_consistent apiKey createObjectURL w Hw) as (Cp & Cm & Ct).
  destruct (reachable_settled apiKey createObjectURL w Hw)
    as (_ & _ & _ & _ & _ & S6 & S7 & _).
  destruct w as [[mf st tr er el tab] ue pend ch]. cbn in *. subst st.
  rewrite Ct in * by discriminate.
  destruct mf as [m|]; [|specialize (Cm eq_refl); discriminate].
  assert (Htab : tab = App.transcript)
    by (destruct tab; [reflexivity|exfalso; now apply S6]).
  subst tab. cbn in S7.
  assert (Hch : ch = None) by (now apply S7). subst ch.
  cbn. repeat split; assumption.
Qed.

Lemma nothing_but_waiting_while_transcribing_witness :
  App.status (App.app Scenario.retried) = TRANSCRIBING /\
  App.enabled Sample.apiKey Scenario.retried App.Reset = false /\
  App.enabled Sample.apiKey Scenario.retried App.StartTranscription = false /\
  App.enabled Sample.apiKey Scenario.retried (App.SelectTab App.assistant) = false /\
  (forall f, App.enabled Sample.apiKey Scenario.retried (App.SelectFile f) = false) /\
  (forall e, App.enabled Sample.apiKey Scenario.retried (App.Assistant e) = false) /\
  App.displayShown (App.app Scenario.retried) = false /\
  App.pending Scenario.retried = 1.
Proof.
  split; [reflexivity|].
  apply (nothing_but_waiting_while_transcribing Sample.apiKey Sample.createObjectURL);
    [sample_reachable|reflexivity].
Defined.

(** X12. Wherever reset is offered on a page that can be reached, it leads
    to the very page the application starts with: no file, IDLE, no
    transcript, no error, elapsed time zero, the transcript tab, no
    uploader error, no outstanding call and no assistant panel. *)
Theorem reset_returns_to_the_start (apiKey : str) (createObjectURL : DOM.File -> str)
        (w : App.World) :
  App.reachable apiKey createObjectURL w ->
  App.enabled apiKey w App.Reset = true ->
  App.step apiKey createObjectURL w App.Reset = App.start.
Proof.
  intros Hw He.
  destruct (reachable_consistent apiKey createObjectURL w Hw) as (Cp & Cm & Ct).
  destruct (reachable_settled apiKey createObjectURL w Hw)
    as (_ & _ & _ & S4 & _).
  destruct w as [[mf st tr er el tab] ue pend ch]. cbn in *.
  destruct mf as [m|]; [|discriminate].
  destruct st; cbn in *; subst pend; try rewrite S4 by reflexivity;
    try reflexivity.
  rewrite Ct in He by discriminate. destruct tab; discriminate.
Qed.

Lemma reset_returns_to_the_start_witness :
  App.enabled Sample.apiKey Sample.chatting App.Reset = true /\
  App.step Sample.apiKey Sample.createObjectURL Sample.chatting App.Reset = App.start.
Proof.
  split; [reflexivity|].
  apply (reset_returns_to_the_start Sample.apiKey Sample.createObjectURL);
    [sample_reachable|reflexivity].
Defined.

(** X13. After a failure the page offers Start Transcription again; pressing
    it removes the error message, issues one call for the file that is
    still loaded and leads to the TRANSCRIBING state, from which a success
    completes the session with the transcript. *)
Theorem retry_after_failure (apiKey : str) (createObjectURL : DOM.File -> str)
        (w : App.World) (result : str) :
  App.reachable apiKey createObjectURL w ->
  App.status (App.app w) = ERROR ->
  let w1 := App.step apiKey createObjectURL w App.StartTranscription in
  let w2 := App.step apiKey createObjectURL w1
                     (App.TranscribeSettled (App.Resolved result)) in
  App.enabled apiKey w App.StartTranscription = true /\
  (exists m, App.mediaFile (App.app w) = Some m /\
             snd (App.handleTranscribe_begin (App.app w)) = Some (file m)) /\
  App.status (App.app w1) = TRANSCRIBING /\
  App.error (App.app w1) = None /\
  App.mediaFile (App.app w1) = App.mediaFile (App.app w) /\
  App.pending w1 = 1 /\
  App.status (App.app w2) = COMPLETED /\
  App.transcription (App.app w2) = result /\
  App.error (App.app w2) = None.
Proof.
  intros Hw Hst.
  destruct (reachable_consistent apiKey createObjectURL w Hw) as (Cp & Cm & Ct).
  destruct w as [[mf st tr er el tab] ue pend ch]. cbn in *. subst st.
  cbn in Cp. subst pend.
  destruct mf as [m|]; [|specialize (Cm eq_refl); discriminate].
  cbn. repeat split. now exists m.
Qed.

Lemma retry_after_failure_witness :
  let w2 := Sample.step Scenario.retried
              (App.TranscribeSettled (App.Resolved (lit "Speaker 1: hello"))) in
  App.status (App.app Scenario.failed) = ERROR /\
  App.enabled Sample.apiKey Scenario.failed App.StartTranscription = true /\
  App.status (App.app Scenario.retried) = TRANSCRIBING /\
  App.error (App.app Scenario.retried) = None /\
  App.pending Scenario.retried = 1 /\
  App.status (App.app w2) = COMPLETED /\
  App.transcription (App.app w2) = lit "Speaker 1: hello".
Proof.
  cbn zeta. split; [reflexivity|].
  pose proof (retry_after_failure Sample.apiKey Sample.createObjectURL
                Scenario.failed (lit "Speaker 1: hello")) as H.
  cbn zeta in H.
  destruct H as (H1 & _ & H3 & H4 & _ & H6 & H7 & H8 & _);
    [sample_reachable|reflexivity|].
  repeat split; assumption.
Defined.

(** X14. A file that passes validation always opens a clean session: on
    every page that can be reached and shows the uploader, selecting it
    gives the page with that file loaded, IDLE, no transcript, no error,
    elapsed time zero, the transcript tab, no outstanding call and no
    assistant panel, whatever happened before. *)
Theorem accepted_file_opens_clean_session (apiKey : str)
        (createObjectURL : DOM.File -> str) (w : App.World)
        (f : DOM.File) (m : MediaFile) :
  App.reachable apiKey createObjectURL w ->
  App.enabled apiKey w (App.SelectFile f) = true ->
  snd (MediaUploader.validateAndProcessFile createObjectURL f) = Some m ->
  App.step apiKey createObjectURL w (App.SelectFile f)
  = {| App.app := {| App.mediaFile := Some m; App.status := IDLE;
                     App.transcription := []; App.error := None;
                     App.elapsedTime := 0; App.activeTab := App.transcript |};
       App.uploadError := None; App.pending := 0; App.chat := None |}.
Proof.
  intros Hw He Hv.
  destruct (reachable_consistent apiKey createObjectURL w Hw) as (Cp & Cm & Ct).
  destruct (reachable_settled apiKey createObjectURL w Hw)
    as (_ & _ & _ & S4 & _).
  destruct w as [[mf st tr er el tab] ue pend ch]. cbn in *.
  destruct mf; [discriminate|]. specialize (Cm eq_refl). subst st.
  cbn in Cp. subst pend. rewrite S4 by reflexivity.
  destruct (MediaUploader.validateAndProcessFile createObjectURL f) as [err call].
  cbn in Hv. subst call. reflexivity.
Qed.

Lemma accepted_file_opens_clean_session_witness :
  let w := App.step Sample.apiKey Sample.createObjectURL Sample.chatting App.Reset in
  App.enabled Sample.apiKey w (App.SelectFile Sample.interview) = true /\
  App.step Sample.apiKey Sample.createObjectURL w (App.SelectFile Sample.interview)
  = {| App.app := {| App.mediaFile := Some Sample.media; App.status := IDLE;
                     App.transcription := []; App.error := None;
                     App.elapsedTime := 0; App.activeTab := App.transcript |};
       App.uploadError := None; App.pending := 0; App.chat := None |}.
Proof.
  cbn zeta. split; [reflexivity|].
  apply (accepted_file_opens_clean_session Sample.apiKey Sample.createObjectURL);
    [sample_reachable|reflexivity|reflexivity].
Defined.

(* ================================================================== *)
(** ** Further properties: the assistant panel *)
(* ================================================================== *)

Lemma reply_hasContent (o : ChatOutcome) : PanelView.hasContent (reply o) = true.
Proof. destruct o as [[[|c t]|]|]; reflexivity. Qed.

(** The messages of a panel after an event: those before, or those before
    and one more that has content. *)
Lemma step_messages (p : Instance) (e : Event) :
  messages (state (step p e)) = messages (state p) \/
  exists m, messages (state (step p e)) = messages (state p) ++ [m] /\
            PanelView.hasContent m = true.
Proof.
  assert (Hsend : forall text,
            messages (state (send p text)) = messages (state p) \/
            exists m, messages (state (send p text)) = messages (state p) ++ [m] /\
                      PanelView.hasContent m = true).
  { intros text. unfold send.
    destruct (handleSend_begin_cases (state p) text) as [E|(session & Hc & Hl & Ht)].
    - rewrite E. now left.
    - rewrite (handleSend_begin_passes _ _ _ Hc Hl Ht). right.
      eexists. split; [reflexivity|]. unfold PanelView.hasContent.
      cbn [role AssistantPanel.text]. now rewrite Ht. }
  destruct e as [|prompt|v|o]; cbn [step]; try apply Hsend.
  - now left.
  - right. exists (reply o). split; [reflexivity|apply reply_hasContent].
Qed.

Lemma panel_shape (apiKey transcription : str) (p : Instance) :
  reachable apiKey transcription p ->
  chatSession (state p) = chatSession (state (mount apiKey transcription)) /\
  (transcription <> [] ->
   exists rest, messages (state p) = PanelView.firstMessage apiKey :: rest) /\
  forallb PanelView.hasContent (messages (state p)) = true.
Proof.
  induction 1 as [|p e _ (IH1 & IH2 & IH3) He].
  - split; [reflexivity|]. unfold mount, initChat, createChatSession,
      PanelView.firstMessage. cbn [state].
    destruct transcription as [|c t]; cbn [isEmpty].
    + split; [congruence|reflexivity].
    + destruct (isEmpty apiKey); cbn; split; try reflexivity;
        intros _; now exists [].
  - rewrite step_chatSession. split; [exact IH1|].
    destruct (step_messages p e) as [E|(m & E & Hm)]; rewrite E.
    + split; assumption.
    + split.
      * intros Ht. destruct (IH2 Ht) as [rest Hr]. rewrite Hr.
        now exists (rest ++ [m]).
      * rewrite forallb_app, IH3. cbn. now rewrite Hm.
Qed.

(** X15. All turns of a panel go to one session: the chat session is the
    one of the mount, whatever happens.  A panel mounted on a transcript
    keeps its first message, the greeting or the notice of the failed
    initialisation, at the head of the conversation, and no message of the
    conversation is without content: what the user sent is not blank, what
    the model said is not empty. *)
Theorem conversation_keeps_its_session_and_head (apiKey transcription : str)
        (p : Instance) :
  reachable apiKey transcription p ->
  chatSession (state p) = chatSession (state (mount apiKey transcription)) /\
  (transcription <> [] ->
   exists rest, messages (state p) = PanelView.firstMessage apiKey :: rest) /\
  Forall (fun m => PanelView.hasContent m = true) (messages (state p)).
Proof.
  intros Hp. destruct (panel_shape _ _ _ Hp) as (H1 & H2 & H3).
  split; [exact H1|]. split; [exact H2|].
  apply Forall_forall. now apply forallb_forall.
Qed.

Lemma conversation_keeps_its_session_and_head_witness :
  let p := step Sample.asked (Settled (Replied None)) in
  chatSession (state p)
  = chatSession (state (mount Sample.apiKey (lit "Speaker 1: hello"))) /\
  (lit "Speaker 1: hello" <> [] ->
   exists rest, messages (state p) = PanelView.firstMessage Sample.apiKey :: rest) /\
  Forall (fun m => PanelView.hasContent m = true) (messages (state p)).
Proof.
  cbn zeta.
  apply (conversation_keeps_its_session_and_head Sample.apiKey (lit "Speaker 1: hello")).
  repeat (apply reach_event; [|reflexivity]). apply reach_mount.
Defined.



(** X17. The conversation never gets shorter, so the quick actions, once
    they are gone, stay away; on a panel mounted on a transcript they are
    gone as soon as a turn is complete. *)
Theorem quick_actions_go_with_the_first_reply (apiKey transcription : str)
        (p : Instance) (e : Event) :
  reachable apiKey transcription p ->
  enabled p e = true ->
  length (messages (state p)) <= length (messages (state (step p e))) /\
  (PanelView.quickActionsShown (state p) = false ->
   PanelView.quickActionsShown (state (step p e)) = false) /\
  (transcription <> [] ->
   forall (text : str) (o : ChatOutcome),
     snd (handleSend_begin (state p) text) <> None ->
     PanelView.quickActionsShown (state (step (send p text) (Settled o))) = false).
Proof.
  intros Hp He.
  destruct (panel_shape _ _ _ Hp) as (_ & Hhead & _).
  assert (Hlen : length (messages (state p)) <= length (messages (state (step p e)))).
  { destruct (step_messages p e) as [E|(m & E & _)]; rewrite E;
      [lia|rewrite length_app; simpl; lia]. }
  split; [exact Hlen|]. split.
  - unfold PanelView.quickActionsShown. intros H.
    apply Nat.ltb_ge in H. apply Nat.ltb_ge. lia.
  - intros Ht text o Hcall. destruct (Hhead Ht) as [rest Hr].
    unfold send.
    destruct (handleSend_begin_cases (state p) text) as [E|(session & Hc & Hl & Hx)].
    + rewrite E in Hcall. now cbn in Hcall.
    + rewrite (handleSend_begin_passes _ _ _ Hc Hl Hx).
      assert (L : 3 <= length ((messages (state p)
                                ++ [{| role := user; text := text |}]) ++ [reply o]))
        by (rewrite Hr, !length_app; simpl; lia).
      unfold PanelView.quickActionsShown. apply Nat.ltb_ge. exact L.
Qed.

Lemma quick_actions_go_with_the_first_reply_witness :
  PanelView.quickActionsShown (state Sample.panel) = true /\
  PanelView.quickActionsShown (state Sample.asked) = true /\
  PanelView.quickActionsShown
    (state (step (send Sample.panel (lit "Summarize")) (Settled Failed))) = false.
Proof.
  split; [reflexivity|]. split; [reflexivity|].
  destruct (quick_actions_go_with_the_first_reply
              Sample.apiKey (lit "Speaker 1: hello") Sample.panel
              (TypeInput (lit "x")) (reach_mount _ _) eq_refl) as (_ & _ & H).
  apply H; discriminate.
Defined.

(* ================================================================== *)
(** ** Further properties: the uploader *)
(* ================================================================== *)

(** X18. Validation decides by the type first and the size second.  A file
    is handed on exactly when its type starts with audio/ or video/ and
    its size is at most 50 * 1024 * 1024, and exactly then no error is
    set; a file of another type gets the message about the type even when
    it is too large as well; a file handed on is the file itself with the
    preview address made for it. *)
Theorem validation_checks_type_before_size (createObjectURL : DOM.File -> str)
        (f : DOM.File) :
  let isAudio := startsWith (lit "audio/") (DOM.type f) in
  let isVideo := startsWith (lit "video/") (DOM.type f) in
  let r := MediaUploader.validateAndProcessFile createObjectURL f in
  (fst r = None <-> snd r <> None) /\
  (snd r <> None <->
   (isAudio = true \/ isVideo = true) /\ (DOM.size f <= 50 * 1024 * 1024)%Z) /\
  (isAudio = false -> isVideo = false ->
   fst r = Some MediaUploader.invalidTypeMessage) /\
  (isAudio = true \/ isVideo = true -> (DOM.size f > 50 * 1024 * 1024)%Z ->
   fst r = Some MediaUploader.tooLargeMessage) /\
  (forall m, snd r = Some m ->
             file m = f /\ previewUrl m = createObjectURL f /\
             (type m = audio <-> isAudio = true)).
Proof.
  cbn zeta. unfold MediaUploader.validateAndProcessFile, MediaUploader.sizeLimit.
  destruct (startsWith (lit "audio/") (DOM.type f)) eqn:Ea;
  destruct (startsWith (lit "video/") (DOM.type f)) eqn:Ev; cbn [negb andb];
    try (destruct (Z.gtb_spec (DOM.size f) (50 * 1024 * 1024)) as [Hs|Hs]);
    cbn [fst snd]; repeat split; intros; try discriminate; try congruence;
    try lia; try tauto; try (left; reflexivity); try (right; reflexivity);
    try match goal with H : Some _ = Some _ |- _ => inversion H; subst; cbn end;
    try reflexivity; try discriminate;
    try match goal with H : _ /\ _ |- _ => destruct H; try lia end;
    try match goal with H : _ \/ _ |- _ => destruct H; discriminate end.
Qed.

Lemma validation_checks_type_before_size_witness :
  let oversizedNotes :=
    {| DOM.name := lit "scan.pdf"; DOM.type := lit "application/pdf";
       DOM.size := 52428801 |} in
  fst (MediaUploader.validateAndProcessFile Sample.createObjectURL oversizedNotes)
  = Some MediaUploader.invalidTypeMessage /\
  fst (MediaUploader.validateAndProcessFile Sample.createObjectURL Sample.huge)
  = Some MediaUploader.tooLargeMessage.
Proof.
  cbn zeta. split.
  - apply (validation_checks_type_before_size Sample.createObjectURL
             {| DOM.name := lit "scan.pdf"; DOM.type := lit "application/pdf";
                DOM.size := 52428801 |}); reflexivity.
  - apply (validation_checks_type_before_size Sample.createObjectURL Sample.huge);
      [right; reflexivity|reflexivity].
Defined.

(** The error and the call of a drop or a change that brings files are
    those of the validation of the first file. *)
Lemma process_first (createObjectURL : DOM.File -> str) (f : DOM.File)
      (s : DropZone.State) :
  DropZone.error (fst (DropZone.process createObjectURL f s))
  = fst (MediaUploader.validateAndProcessFile createObjectURL f) /\
  snd (DropZone.process createObjectURL f s)
  = snd (MediaUploader.validateAndProcessFile createObjectURL f) /\
  DropZone.dragActive (fst (DropZone.process createObjectURL f s))
  = DropZone.dragActive s.
Proof.
  unfold DropZone.process.
  now destruct (MediaUploader.validateAndProcessFile createObjectURL f).
Qed.

(** X19. Of the files dropped or chosen only the first is looked at: the
    error shown afterwards and the file handed on are those of its
    validation, whatever error was shown before and whatever files follow.
    A drop always ends the drag highlight, a change of the input leaves it;
    with no file at all nothing is handed on and the error stays as it
    was. *)
Theorem only_the_first_file_counts (createObjectURL : DOM.File -> str)
        (f : DOM.File) (others : list DOM.File) (s : DropZone.State) :
  let dropped := DropZone.handleDrop createObjectURL (f :: others) s in
  let chosen := DropZone.handleChange createObjectURL (f :: others) s in
  let verdict := MediaUploader.validateAndProcessFile createObjectURL f in
  (DropZone.error (fst dropped) = fst verdict /\ snd dropped = snd verdict /\
   DropZone.dragActive (fst dropped) = false) /\
  (DropZone.error (fst chosen) = fst verdict /\ snd chosen = snd verdict /\
   DropZone.dragActive (fst chosen) = DropZone.dragActive s) /\
  (DropZone.handleDrop createObjectURL [] s
   = ({| DropZone.dragActive := false; DropZone.error := DropZone.error s |}, None)) /\
  DropZone.handleChange createObjectURL [] s = (s, None).
Proof.
  cbn zeta. unfold DropZone.handleDrop, DropZone.handleChange.
  split; [|split; [|split; reflexivity]].
  - destruct (process_first createObjectURL f
                {| DropZone.dragActive := false; DropZone.error := DropZone.error s |})
      as (H1 & H2 & H3).
    now rewrite H1, H2, H3.
  - destruct (process_first createObjectURL f s) as (H1 & H2 & H3).
    now rewrite H1, H2, H3.
Qed.

(* ================================================================== *)
(** ** Further properties: the formatting of the model's messages *)
(* ================================================================== *)

Import FormattedMessage.

Lemma Subsequence_refl (s : str) : Subsequence s s.
Proof. induction s; [apply sub_nil|now apply sub_keep]. Qed.

Lemma Subsequence_trans (a b c : str) :
  Subsequence a b -> Subsequence b c -> Subsequence a c.
Proof.
  intros Hab Hbc. revert a Hab.
  induction Hbc as [|b c x Hbc IH|b c x Hbc IH]; intros a Hab.
  - exact Hab.
  - constructor. now apply IH.
  - inversion Hab; subst.
    + apply sub_drop. now apply IH.
    + apply sub_keep. now apply IH.
Qed.

Lemma Subsequence_length (a b : str) : Subsequence a b -> length a <= length b.
Proof. induction 1; simpl; lia. Qed.

Lemma removePairs_step (a x y : ascii) (s : str) :
  removePairs a (x :: y :: s)
  = if Ascii.eqb x a && Ascii.eqb y a then removePairs a s
    else x :: removePairs a (y :: s).
Proof. reflexivity. Qed.

Lemma removePairs_sub (a : ascii) (s : str) : Subsequence (removePairs a s) s.
Proof.
  enough (H : Subsequence (removePairs a s) s /\
              forall x, Subsequence (removePairs a (x :: s)) (x :: s)) by apply H.
  induction s as [|y s [IH1 IH2]].
  - split; [constructor|]. intros x. apply Subsequence_refl.
  - split; [apply IH2|]. intros x. rewrite removePairs_step.
    destruct (Ascii.eqb x a && Ascii.eqb y a).
    + now do 2 apply sub_drop.
    + apply sub_keep. apply IH2.
Qed.

Lemma dropWhile_sub (f : ascii -> bool) (s : str) : Subsequence (dropWhile f s) s.
Proof.
  induction s as [|c s IH]; simpl; [constructor|].
  destruct (f c); [now apply sub_drop|apply Subsequence_refl].
Qed.

Lemma removeHeaderMarkers_sub (fuel : nat) (b : bool) (s : str) :
  Subsequence (removeHeaderMarkers fuel b s) s.
Proof.
  revert b s; induction fuel as [|fuel IH]; intros b s; [apply Subsequence_refl|].
  cbn [removeHeaderMarkers]. destruct s as [|c s']; [constructor|].
  destruct (b && isHash c).
  - eapply Subsequence_trans; [apply IH|].
    eapply Subsequence_trans; apply dropWhile_sub.
  - apply sub_keep. apply IH.
Qed.

Lemma removePairs_absent (a : ascii) (s : str) :
  forallb (fun c => negb (Ascii.eqb c a)) s = true -> removePairs a s = s.
Proof.
  enough (H : (forallb (fun c => negb (Ascii.eqb c a)) s = true ->
               removePairs a s = s) /\
              forall x, forallb (fun c => negb (Ascii.eqb c a)) (x :: s) = true ->
                        removePairs a (x :: s) = x :: s) by apply H.
  induction s as [|y s [IH1 IH2]].
  - split; reflexivity.
  - split; [apply IH2|]. intros x H. rewrite removePairs_step.
    cbn [forallb] in H. apply andb_true_iff in H as [Hx H].
    apply negb_true_iff in Hx. rewrite Hx. cbn [andb].
    now rewrite (IH2 y H).
Qed.

Lemma removeHeaderMarkers_absent (fuel : nat) (b : bool) (s : str) :
  forallb (fun c => negb (isHash c)) s = true ->
  removeHeaderMarkers fuel b s = s.
Proof.
  revert b s; induction fuel as [|fuel IH]; intros b s H; [reflexivity|].
  cbn [removeHeaderMarkers]. destruct s as [|c s']; [reflexivity|].
  cbn [forallb] in H. apply andb_true_iff in H as [Hc H].
  apply negb_true_iff in Hc. rewrite Hc, andb_false_r.
  now rewrite IH.
Qed.

(** X20. The cleanup only deletes: what it returns is the text with some
    code units removed, never longer, never with a unit added or changed;
    a text without any star, underscore or hash comes back as it is. *)
Theorem cleanup_only_deletes (text : str) :
  Subsequence (cleanText text) text /\
  length (cleanText text) <= length text /\
  (forallb (fun c => negb (isMarker c)) text = true -> cleanText text = text).
Proof.
  assert (S : Subsequence (cleanText text) text).
  { unfold cleanText.
    eapply Subsequence_trans; [apply removeHeaderMarkers_sub|].
    eapply Subsequence_trans; apply removePairs_sub. }
  split; [exact S|]. split; [now apply Subsequence_length|].
  intros H. unfold cleanText.
  assert (Hs : forall a, (a = "*" \/ a = "_" \/ a = "#")%char ->
                         forallb (fun c => negb (Ascii.eqb c a)) text = true).
  { intros a Ha. rewrite forallb_forall in *. intros c Hc.
    specialize (H c Hc). unfold isMarker in H.
    apply negb_true_iff in H. apply orb_false_iff in H as [H H3].
    apply orb_false_iff in H as [H1 H2].
    destruct Ha as [->|[->| ->]]; now apply negb_true_iff. }
  rewrite (removePairs_absent "*" text) by (apply Hs; auto).
  rewrite (removePairs_absent "_" text) by (apply Hs; auto).
  apply removeHeaderMarkers_absent. apply Hs. auto.
Qed.

Lemma removePairs_other (a x : ascii) (s : str) :
  Ascii.eqb x a = false -> removePairs a (x :: s) = x :: removePairs a s.
Proof. intros H. destruct s; cbn [removePairs]; [reflexivity|now rewrite H]. Qed.

Lemma hasPair_cons (a x : ascii) (s : str) :
  hasPair a (x :: s)
  = match s with
    | [] => false
    | y :: _ => (Ascii.eqb x a && Ascii.eqb y a) || hasPair a s
    end.
Proof. destruct s; reflexivity. Qed.

Lemma removePairs_clean (a : ascii) (s : str) : hasPair a (removePairs a s) = false.
Proof.
  enough (H : hasPair a (removePairs a s) = false /\
              forall x, hasPair a (removePairs a (x :: s)) = false) by apply H.
  induction s as [|y s [IH1 IH2]].
  - split; [reflexivity|]. intros x. reflexivity.
  - split; [apply IH2|]. intros x. rewrite removePairs_step.
    destruct (Ascii.eqb x a) eqn:Hx; cbn [andb].
    + destruct (Ascii.eqb y a) eqn:Hy; [exact IH1|].
      rewrite removePairs_other by exact Hy.
      rewrite hasPair_cons, Hx, Hy. cbn [andb orb].
      rewrite <- (removePairs_other a y s Hy). apply IH2.
    + rewrite hasPair_cons. specialize (IH2 y).
      destruct (removePairs a (y :: s)); [reflexivity|].
      now rewrite IH2, Hx.
Qed.

Lemma hasPair_tail (a x : ascii) (s : str) :
  hasPair a (x :: s) = false -> hasPair a s = false.
Proof.
  rewrite hasPair_cons. destruct s; [reflexivity|].
  intros H. now apply orb_false_iff in H.
Qed.

Lemma hasPair_dropWhile (a : ascii) (f : ascii -> bool) (s : str) :
  hasPair a s = false -> hasPair a (dropWhile f s) = false.
Proof.
  induction s as [|c s IH]; simpl dropWhile; [reflexivity|].
  intros H. destruct (f c); [|exact H].
  apply IH. now apply hasPair_tail in H.
Qed.

Lemma removeHeaderMarkers_clean (fuel : nat) (b : bool) (s : str) :
  hasPair "_" s = false ->
  hasPair "_" (removeHeaderMarkers fuel b s) = false /\
  (b = false -> hd_error (removeHeaderMarkers fuel b s) = hd_error s).
Proof.
  revert b s; induction fuel as [|fuel IH]; intros b s H; [now split|].
  cbn [removeHeaderMarkers]. destruct s as [|c s']; [now split|].
  destruct (b && isHash c) eqn:Hb.
  - split.
    + apply IH. now do 2 apply hasPair_dropWhile.
    + intros ->. discriminate.
  - split; [|reflexivity].
    destruct (IH (isLineTerminator c) s' (hasPair_tail _ _ _ H)) as [I1 I2].
    rewrite hasPair_cons.
    destruct (removeHeaderMarkers fuel (isLineTerminator c) s') as [|r out] eqn:E;
      [reflexivity|].
    rewrite I1, orb_false_r.
    destruct (Ascii.eqb c "_") eqn:Hc; [|reflexivity]. cbn [andb].
    apply Ascii.eqb_eq in Hc. subst c.
    specialize (I2 eq_refl). destruct s' as [|d s'']; [discriminate|].
    cbn in I2. inversion I2; subst.
    rewrite hasPair_cons in H. apply orb_false_iff in H as [H _].
    exact H.
Qed.

(** X21. After the cleanup no two underscores stand side by side.  The same
    does not hold of the stars, which the removal of underscores can bring
    together, nor of the hashes: a line may still begin with one. *)
Theorem cleanup_leaves_no_italic_marker (text : str) :
  hasPair "_" (cleanText text) = false /\
  hasPair "*" (removePairs "*" text) = false /\
  cleanText (lit "*__*") = lit "**" /\
  cleanText (lit "# #x") = lit "#x".
Proof.
  split; [|split; [apply removePairs_clean|split; reflexivity]].
  unfold cleanText. apply removeHeaderMarkers_clean. apply removePairs_clean.
Qed.

Lemma bullet_never_starts (s : str) : startsWithUnits bulletUnits s = false.
Proof.
  destruct s as [|c [|d s]]; try reflexivity.
  - cbn. now rewrite andb_false_r.
  - cbn [bulletUnits startsWithUnits].
    pose proof (N_ascii_bounded d) as Hd.
    replace (8364 =? N_of_ascii d)%N with false
      by (symmetry; apply N.eqb_neq; lia).
    cbn. now rewrite andb_false_r.
Qed.

Lemma splitOn_nonempty (sep : ascii) (s : str) : splitOn sep s <> [].
Proof.
  induction s as [|c s IH]; simpl; [discriminate|].
  destruct (Ascii.eqb c sep); [discriminate|].
  destruct (splitOn sep s); discriminate.
Qed.

Lemma joinOn_cons (sep : ascii) (l : str) (ls : list str) :
  ls <> [] -> joinOn sep (l :: ls) = l ++ sep :: joinOn sep ls.
Proof. destruct ls; [congruence|reflexivity]. Qed.

Lemma joinOn_splitOn (sep : ascii) (s : str) : joinOn sep (splitOn sep s) = s.
Proof.
  induction s as [|c s IH]; [reflexivity|].
  simpl splitOn. destruct (Ascii.eqb c sep) eqn:Hc.
  - apply Ascii.eqb_eq in Hc. subst c.
    rewrite joinOn_cons by apply splitOn_nonempty. now rewrite IH.
  - pose proof (splitOn_nonempty sep s) as Hne.
    destruct (splitOn sep s) as [|l ls]; [congruence|].
    destruct ls as [|l' ls].
    + simpl in *. congruence.
    + rewrite joinOn_cons by discriminate.
      rewrite joinOn_cons in IH by discriminate.
      rewrite <- app_comm_cons. now rewrite IH.
Qed.

Lemma splitOn_head (sep : ascii) (s : str) :
  forallb (fun c => negb (Ascii.eqb c sep)) (hd [] (splitOn sep s)) = true.
Proof.
  induction s as [|c s IH]; [reflexivity|].
  simpl splitOn. destruct (Ascii.eqb c sep) eqn:Hc; [reflexivity|].
  destruct (splitOn sep s) as [|l ls]; cbn in *; now rewrite Hc.
Qed.

Lemma startsWith_prefix (prefix s : str) :
  startsWith prefix s = true -> s = prefix ++ skipn (length prefix) s.
Proof.
  revert s; induction prefix as [|p prefix IH]; intros [|c s] H;
    cbn [startsWith] in H; try discriminate; try reflexivity.
  apply andb_true_iff in H as [Hp H]. apply Ascii.eqb_eq in Hp. subst c.
  cbn [length skipn app]. f_equal. now apply IH.
Qed.

Lemma toUpperCaseUnit_cases (c : ascii) :
  (exists m, toUpperCaseUnit c = [m]) \/
  (toUpperCaseUnit c = [83%N; 83%N] /\ N_of_ascii c = 223%N).
Proof.
  unfold toUpperCaseUnit.
  destruct ((97 <=? N_of_ascii c) && (N_of_ascii c <=? 122)
            || (224 <=? N_of_ascii c) && (N_of_ascii c <=? 254)
               && negb (N_of_ascii c =? 247))%N; [left; eauto|].
  destruct (N_of_ascii c =? 255)%N; [left; eauto|].
  destruct (N_of_ascii c =? 181)%N; [left; eauto|].
  destruct (N_of_ascii c =? 223)%N eqn:E; [right|left; eauto].
  apply N.eqb_eq in E. now split.
Qed.

(** A string equals its upper-cased form exactly when upper-casing changes
    none of its code units. *)
Lemma isUpperCased_units (s : str) :
  isUpperCased s = forallb (fun c => unitsEq [N_of_ascii c] (toUpperCaseUnit c)) s.
Proof.
  unfold isUpperCased, units, toUpperCase.
  induction s as [|c s IH]; [reflexivity|].
  cbn [map flat_map forallb]. rewrite <- IH.
  destruct (toUpperCaseUnit_cases c) as [[m ->]|[-> E]].
  - cbn [app unitsEq]. now rewrite andb_true_r.
  - rewrite E. reflexivity.
Qed.

(** X22. Every line whose code units lie below 256 becomes one element
    that shows the line, trimmed, and nothing else: a spacer stands for a
    blank line and for no other; a header and a paragraph show the trimmed
    line, a header only when the line has 4 to 59 code units, no letter
    that upper-casing would change, a capital A-Z and no leading dash; a
    list item shows the trimmed line without its leading dash and space
    (the other list marker of the source holds the code unit 8364, which
    such a line cannot contain); the number of a numbered item holds no
    space, and either the number and the text, put together with a space
    again, give the trimmed line, or the trimmed line holds no space (a
    tab follows the dot, say), and then the number is the whole trimmed
    line and the text is empty.  A line that begins with a dash is a list
    item or a paragraph, never a header. *)
Theorem formatLine_shows_the_trimmed_line (line : str) :
  match formatLine line with
  | Spacer => forallb isWhiteSpace line = true
  | Header title =>
      title = trim line /\ 3 < length title < 60 /\
      Forall (fun c => toUpperCaseUnit c = [N_of_ascii c]) title /\
      hasCapital title = true /\ startsWith (lit "-") title = false
  | ListItem item => trim line = lit "- " ++ item
  | NumberedItem num rest =>
      isNumbered (trim line) = true /\
      forallb (fun c => negb (Ascii.eqb c " ")) num = true /\
      ((trim line = num /\ rest = []) \/ trim line = num ++ " "%char :: rest)
  | Paragraph body => body = trim line /\ body <> []
  end /\
  (forallb isWhiteSpace line = true -> formatLine line = Spacer) /\
  (startsWith (lit "-") (trim line) = true ->
   exists t, formatLine line = ListItem t \/ formatLine line = Paragraph t).
Proof.
  unfold formatLine. cbn zeta.
  destruct (isEmpty (trim line)) eqn:Hb.
  { split; [now apply trim_empty_iff|]. split; [reflexivity|].
    destruct (trim line); discriminate. }
  assert (Hne : trim line <> []) by (destruct (trim line); [discriminate|discriminate]).
  assert (Hnb : forallb isWhiteSpace line = true -> False).
  { intros H. apply trim_empty_iff in H. congruence. }
  rewrite bullet_never_starts, orb_false_r.
  destruct ((length (trim line) <? 60) && (3 <? length (trim line))
            && isUpperCased (trim line) && hasCapital (trim line)
            && negb (startsWith (lit "-") (trim line))) eqn:Hh.
  { apply andb_true_iff in Hh as [Hh Hdash].
    apply andb_true_iff in Hh as [Hh Hcap].
    apply andb_true_iff in Hh as [Hh Hup].
    apply andb_true_iff in Hh as [Hlt Hgt].
    apply negb_true_iff in Hdash.
    split; [|split; [intros H'; destruct (Hnb H')|intros Hd; congruence]].
    split; [reflexivity|]. split; [split; [now apply Nat.ltb_lt|now apply Nat.ltb_lt]|].
    split; [|split; assumption].
    rewrite isUpperCased_units in Hup. apply Forall_forall. intros c Hc.
    rewrite forallb_forall in Hup. specialize (Hup c Hc).
    destruct (toUpperCaseUnit c) as [|u [|v r]]; cbn in Hup; try discriminate.
    - apply andb_true_iff in Hup as [Hup _]. apply N.eqb_eq in Hup. now subst.
    - now rewrite andb_false_r in Hup. }
  destruct (startsWith (lit "- ") (trim line)) eqn:Hl.
  { split; [|split; [intros H'; destruct (Hnb H')|intros _; eexists; now left]].
    exact (startsWith_prefix (lit "- ") (trim line) Hl). }
  destruct (isNumbered (trim line)) eqn:Hn.
  { pose proof (joinOn_splitOn " " (trim line)) as Hj.
    pose proof (splitOn_head " " (trim line)) as Hhd.
    pose proof (splitOn_nonempty " " (trim line)) as Hs.
    destruct (splitOn " " (trim line)) as [|num rest]; [congruence|].
    split; [|split; [intros H'; destruct (Hnb H')|]].
    - split; [reflexivity|]. split; [exact Hhd|].
      destruct rest as [|r rest]; [left; now split|right].
      rewrite joinOn_cons in Hj by discriminate. now symmetry.
    - intros Hd. exfalso.
      apply startsWith_prefix in Hd. rewrite Hd in Hn. discriminate. }
  split; [now split|]. split; [intros H'; destruct (Hnb H')|].
  intros _. eexists. now right.
Qed.
